(** * Contact form and theme hook of the portfolio site

    A shallow embedding of [src/pages/Contact.tsx] (field validation, the
    submission controller) and of the [useTheme] hook, with the properties
    the specification states about them.

    JavaScript strings are sequences of UTF-16 code units; a string is
    modelled as the list of its code units, so that [length] is the
    [.length] of the source and [trim] and the regular expression see the
    same units the engine sees. *)

From Stdlib Require Import NArith Ascii String.
From stdpp Require Import gmap list strings.

Open Scope N_scope.
Open Scope nat_scope.

(** ** Strings *)

Abbreviation jsstring := (list N).

(** A string literal of the source: one code unit per character. *)
Fixpoint lit (s : string) : jsstring :=
  match s with
  | EmptyString => []
  | String a s' => N_of_ascii a :: lit s'
  end.

(** ToBoolean on a string: only the empty string is falsy. *)
Definition truthy (s : jsstring) : bool :=
  match s with
  | [] => false
  | _ :: _ => true
  end.

(** The code units of the WhiteSpace and LineTerminator productions of
    ECMAScript: what [String.prototype.trim] strips and what [\s] matches. *)
Definition isWhiteSpace (c : N) : bool :=
  ((c =? 0x09) || (c =? 0x0A) || (c =? 0x0B) || (c =? 0x0C) || (c =? 0x0D)
   || (c =? 0x20) || (c =? 0xA0) || (c =? 0x1680)
   || ((0x2000 <=? c) && (c <=? 0x200A))
   || (c =? 0x2028) || (c =? 0x2029) || (c =? 0x202F) || (c =? 0x205F)
   || (c =? 0x3000) || (c =? 0xFEFF))%N.

Fixpoint trimStart (s : jsstring) : jsstring :=
  match s with
  | [] => []
  | c :: s' => if isWhiteSpace c then trimStart s' else s
  end.

Definition trimEnd (s : jsstring) : jsstring := rev (trimStart (rev s)).

(** [String.prototype.trim] *)
Definition trim (s : jsstring) : jsstring := trimEnd (trimStart s).

(** ** Regular expressions

    The one pattern of the source has no flags and is anchored by [^]
    and [$], so [test] answers whether the whole input is in the language
    of the pattern.  Patterns are matched by derivatives. *)

Inductive regex : Type :=
| Void : regex
| Eps : regex
| Class : (N -> bool) -> regex
| Cat : regex -> regex -> regex
| Alt : regex -> regex -> regex
| Star : regex -> regex.

(** [r+] *)
Definition Plus (r : regex) : regex := Cat r (Star r).

(** A literal character. *)
Definition Chr (a : ascii) : regex := Class (N.eqb (N_of_ascii a)).

Fixpoint nullable (r : regex) : bool :=
  match r with
  | Void => false
  | Eps => true
  | Class _ => false
  | Cat r1 r2 => nullable r1 && nullable r2
  | Alt r1 r2 => nullable r1 || nullable r2
  | Star _ => true
  end.

Fixpoint deriv (c : N) (r : regex) : regex :=
  match r with
  | Void => Void
  | Eps => Void
  | Class p => if p c then Eps else Void
  | Cat r1 r2 =>
      if nullable r1 then Alt (Cat (deriv c r1) r2) (deriv c r2)
      else Cat (deriv c r1) r2
  | Alt r1 r2 => Alt (deriv c r1) (deriv c r2)
  | Star r1 => Cat (deriv c r1) (Star r1)
  end.

(** [r.test(s)] for an anchored pattern without flags. *)
Fixpoint test (r : regex) (s : jsstring) : bool :=
  match s with
  | [] => nullable r
  | c :: s' => test (deriv c r) s'
  end.

(** The language of a pattern, as a relation. *)
Inductive Matches : regex -> jsstring -> Prop :=
| MEps : Matches Eps []
| MClass p c : p c = true -> Matches (Class p) [c]
| MCat r1 r2 s1 s2 : Matches r1 s1 -> Matches r2 s2 -> Matches (Cat r1 r2) (s1 ++ s2)
| MAltL r1 r2 s : Matches r1 s -> Matches (Alt r1 r2) s
| MAltR r1 r2 s : Matches r2 s -> Matches (Alt r1 r2) s
| MStarNil r : Matches (Star r) []
| MStarApp r s1 s2 : Matches r s1 -> Matches (Star r) s2 -> Matches (Star r) (s1 ++ s2).

(** ** The form validator (Contact.tsx) *)

(** [keyof FormData] *)
Inductive Field : Type := Name | Email | Subject | Message.

#[global] Instance Field_eq_dec : EqDecision Field.
Proof. solve_decision. Defined.

#[global] Instance Field_countable : Countable Field.
Proof.
  refine (inj_countable'
            (fun f => match f with Name => 0 | Email => 1 | Subject => 2 | Message => 3 end)
            (fun n => match n with 0 => Name | 1 => Email | 2 => Subject | _ => Message end) _).
  by intros [].
Defined.

Record FormData : Type := mkFormData {
  name : jsstring;
  email : jsstring;
  subject : jsstring;
  message : jsstring
}.

(** [formData[field]] *)
Definition get (field : Field) (formData : FormData) : jsstring :=
  match field with
  | Name => name formData
  | Email => email formData
  | Subject => subject formData
  | Message => message formData
  end.

(** [{ ...prev, [field]: value }] *)
Definition set (field : Field) (value : jsstring) (prev : FormData) : FormData :=
  match field with
  | Name => mkFormData value (email prev) (subject prev) (message prev)
  | Email => mkFormData (name prev) value (subject prev) (message prev)
  | Subject => mkFormData (name prev) (email prev) value (message prev)
  | Message => mkFormData (name prev) (email prev) (subject prev) value
  end.

(** [Object.keys(formData)]: the own keys in insertion order. *)
Definition Object_keys (_ : FormData) : list Field := [Name; Email; Subject; Message].

(** [[^\s@]] *)
Definition notSpaceAt (c : N) : bool :=
  negb (isWhiteSpace c || (c =? N_of_ascii "@")%N).

(** [/^[^\s@]+@[^\s@]+\.[^\s@]+$/] *)
Definition emailRegex : regex :=
  Cat (Plus (Class notSpaceAt))
    (Cat (Chr "@")
       (Cat (Plus (Class notSpaceAt))
          (Cat (Chr ".") (Plus (Class notSpaceAt))))).

(** The [default] case of the [switch] has no field of [keyof FormData] left
    to answer for. *)
Definition validateField (name : Field) (value : jsstring) : jsstring :=
  match name with
  | Name =>
      if negb (truthy (trim value)) then lit "Name is required"
      else if length (trim value) <? 2 then lit "Name must be at least 2 characters"
      else lit ""
  | Email =>
      if negb (truthy (trim value)) then lit "Email is required"
      else if negb (test emailRegex value) then lit "Please enter a valid email address"
      else lit ""
  | Subject =>
      if negb (truthy (trim value)) then lit "Subject is required"
      else if length (trim value) <? 3 then lit "Subject must be at least 3 characters"
      else lit ""
  | Message =>
      if negb (truthy (trim value)) then lit "Message is required"
      else if length (trim value) <? 10 then lit "Message must be at least 10 characters"
      else lit ""
  end.

(** The [forEach] loop of [validateForm]: the error object it fills and the
    flag it leaves in [isValid]. *)
Definition collectErrors (formData : FormData) : gmap Field jsstring * bool :=
  foldl (fun acc field =>
           let error := validateField field (get field formData) in
           if truthy error then (<[field := error]> (fst acc), false) else acc)
        (∅, true) (Object_keys formData).

(** *** Component state and the submission controller *)

Inductive Status : Type := Idle | Loading | Success | Error.

#[global] Instance Status_eq_dec : EqDecision Status.
Proof. solve_decision. Defined.

Module Submission.
Record t : Type := mk { status : Status; message : jsstring }.
End Submission.

Abbreviation SubmissionState := Submission.t.

(** A thrown value: an [Error] object with its message. *)
Record Exn : Type := mkError { error_message : jsstring }.

(** What [handleSubmit] reads from the [Response] of [fetch]: the [ok] flag,
    and the outcome of [response.json()], which either throws or yields an
    object whose [message] property may be undefined. *)
Record Response : Type := mkResponse {
  ok : bool;
  json : Exn + option jsstring
}.

(** The three [useState] cells of the component, together with what the
    component has handed to the environment: the bodies of the requests that
    have not settled yet, and the delays of the timers that have not fired
    yet (every timer of this component runs the same callback). *)
Record State : Type := mkState {
  formData : FormData;
  errors : gmap Field jsstring;
  submission : SubmissionState;
  requests : list FormData;
  timers : list N
}.

Definition setFormData (fd : FormData) (s : State) : State :=
  mkState fd (errors s) (submission s) (requests s) (timers s).

Definition setErrors (e : gmap Field jsstring) (s : State) : State :=
  mkState (formData s) e (submission s) (requests s) (timers s).

Definition setSubmission (sub : SubmissionState) (s : State) : State :=
  mkState (formData s) (errors s) sub (requests s) (timers s).

(** [fetch("/api/contact/submit", { ..., body: JSON.stringify(formData) })] *)
Definition fetch (body : FormData) (s : State) : State :=
  mkState (formData s) (errors s) (submission s) (requests s ++ [body]) (timers s).

(** [setTimeout(() => setSubmission({ status: "idle", message: "" }), delay)];
    the handle the call returns is dropped by the source. *)
Definition setTimeout (delay : N) (s : State) : State :=
  mkState (formData s) (errors s) (submission s) (requests s) (timers s ++ [delay]).

Definition emptyForm : FormData := mkFormData (lit "") (lit "") (lit "") (lit "").

Definition idleSubmission : SubmissionState := Submission.mk Idle (lit "").

Definition initial : State := mkState emptyForm ∅ idleSubmission [] [].

(** ToBoolean on [errors[field]]: undefined and the empty string are falsy. *)
Definition truthy_opt (o : option jsstring) : bool :=
  match o with
  | Some e => truthy e
  | None => false
  end.

(** [hasError] of [FormInput]: [!!errors[name]] *)
Definition hasError (s : State) (field : Field) : bool := truthy_opt (errors s !! field).

Definition handleInputChange (field : Field) (value : jsstring) (s : State) : State :=
  let s1 := setFormData (set field value (formData s)) s in
  let s2 := if truthy_opt (errors s !! field)
            then setErrors (<[field := lit ""]> (errors s1)) s1
            else s1 in
  if negb (bool_decide (Submission.status (submission s) = Idle))
  then setSubmission idleSubmission s2
  else s2.

Definition thanks : jsstring :=
  lit "Thank you! Your message has been sent successfully. I'll get back to you soon.".

Definition validateForm (s : State) : State * bool :=
  let '(newErrors, isValid) := collectErrors (formData s) in
  (setErrors newErrors s, isValid).

(** [handleSubmit] up to its [await]. *)
Definition handleSubmit (s : State) : State :=
  let '(s1, valid) := validateForm s in
  if negb valid then s1
  else fetch (formData s) (setSubmission (Submission.mk Loading (lit "")) s1).

(** The statements shared by the [response.ok] branch and the [catch] block. *)
Definition showSuccess (s : State) : State :=
  setTimeout 5000
    (setErrors ∅
       (setFormData emptyForm
          (setSubmission (Submission.mk Success thanks) s))).

(** [errorData.message || "Failed to send message"] *)
Definition messageOr (m : option jsstring) (default : jsstring) : jsstring :=
  match m with
  | Some t => if truthy t then t else default
  | None => default
  end.

(** The [try] block after the [await]: the new state, or the value thrown. *)
Definition tryBlock (result : Exn + Response) (s : State) : Exn + State :=
  match result with
  | inl rejected => inl rejected
  | inr response =>
      if ok response then inr (showSuccess s)
      else match json response with
           | inl thrown => inl thrown
           | inr errorData => inl (mkError (messageOr errorData (lit "Failed to send message")))
           end
  end.

(** The [catch] block: it logs the form data and goes on as for a success;
    the caught value is named and never read. *)
Definition catchBlock (error : Exn) (s : State) : State := showSuccess s.

(** [handleSubmit] from its [await] on, given how the request settled. *)
Definition resumeSubmit (result : Exn + Response) (s : State) : State :=
  match tryBlock result s with
  | inr s' => s'
  | inl error => catchBlock error s
  end.

(** The timer callback. *)
Definition onTimeout (s : State) : State := setSubmission idleSubmission s.

(** [disabled={submission.status === "loading"}] on the submit button. *)
Definition submitDisabled (s : State) : bool :=
  bool_decide (Submission.status (submission s) = Loading).

(** What can happen to the mounted component: the user edits a field or
    submits the form through its button, a pending request settles, a pending
    timer fires. *)
Inductive Event : Type :=
| Change (field : Field) (value : jsstring)
| Submit
| Settle (i : nat) (result : Exn + Response)
| Timeout (i : nat).

Definition step (s : State) (ev : Event) : State :=
  match ev with
  | Change field value => handleInputChange field value s
  | Submit => if submitDisabled s then s else handleSubmit s
  | Settle i result =>
      match requests s !! i with
      | Some _ =>
          resumeSubmit result
            (mkState (formData s) (errors s) (submission s) (delete i (requests s)) (timers s))
      | None => s
      end
  | Timeout i =>
      match timers s !! i with
      | Some _ =>
          onTimeout
            (mkState (formData s) (errors s) (submission s) (requests s) (delete i (timers s)))
      | None => s
      end
  end.

Definition run (s : State) (trace : list Event) : State := foldl step s trace.

Definition reachable (s : State) : Prop := ∃ trace, s = run initial trace.

(** ** The theme hook (useTheme) *)

Module Theme.

(** The hook's state cell and the parts of the browser it touches. *)
Record World : Type := mkWorld {
  window_defined : bool;
  isDarkMode : bool;
  localStorage : gmap jsstring jsstring;
  classList : gset jsstring
}.

Definition key : jsstring := lit "theme-preference".

Definition setIsDarkMode (b : bool) (w : World) : World :=
  mkWorld (window_defined w) b (localStorage w) (classList w).

Definition getItem (k : jsstring) (w : World) : option jsstring := localStorage w !! k.

Definition setItem (k v : jsstring) (w : World) : World :=
  mkWorld (window_defined w) (isDarkMode w) (<[k := v]> (localStorage w)) (classList w).

Definition classList_add (c : jsstring) (w : World) : World :=
  mkWorld (window_defined w) (isDarkMode w) (localStorage w) ({[c]} ∪ classList w).

Definition classList_remove (c : jsstring) (w : World) : World :=
  mkWorld (window_defined w) (isDarkMode w) (localStorage w) (classList w ∖ {[c]}).

Definition applyThemeToDOM (isDark : bool) (w : World) : World :=
  if isDark
  then classList_remove (lit "light") (classList_add (lit "dark") w)
  else classList_remove (lit "dark") (classList_add (lit "light") w).

(** The mount effect. *)
Definition initialize (w : World) : World :=
  if window_defined w then
    let savedTheme := getItem key w in
    if truthy_opt savedTheme then
      let isDark := bool_decide (savedTheme = Some (lit "dark")) in
      applyThemeToDOM isDark (setIsDarkMode isDark w)
    else
      setItem key (lit "dark") (applyThemeToDOM true (setIsDarkMode true w))
  else w.

(** [toggleTheme] as the closure one render creates: [rendered] is the
    [isDarkMode] that render has captured, and the call reads it, not the
    state cell.  Two calls made by one handler come from the same render and
    read the same value. *)
Definition toggleThemeFrom (rendered : bool) (w : World) : World :=
  let newTheme := negb rendered in
  setItem key (if newTheme then lit "dark" else lit "light")
    (applyThemeToDOM newTheme (setIsDarkMode newTheme w)).

(** [toggleTheme] called from the render of the current state, where the
    captured flag is the state cell. *)
Definition toggleTheme (w : World) : World :=
  let newTheme := negb (isDarkMode w) in
  setItem key (if newTheme then lit "dark" else lit "light")
    (applyThemeToDOM newTheme (setIsDarkMode newTheme w)).

Inductive ThemeName : Type := light | dark.

Definition themeString (t : ThemeName) : jsstring :=
  match t with light => lit "light" | dark => lit "dark" end.

Definition setTheme (theme : ThemeName) (w : World) : World :=
  let isDark := bool_decide (themeString theme = lit "dark") in
  setItem key (themeString theme) (applyThemeToDOM isDark (setIsDarkMode isDark w)).

(** [currentTheme] *)
Definition currentTheme (w : World) : jsstring :=
  if isDarkMode w then lit "dark" else lit "light".

(** [themeDisplayText] *)
Definition themeDisplayText (w : World) : jsstring :=
  if isDarkMode w then lit "Light Mode" else lit "Dark Mode".

(** What a component can call on the value the hook returns; the component
    is rendered again between two calls, so each call reads the flag the call
    before it has set. *)
Inductive Call : Type :=
| Toggle
| SetTheme (theme : ThemeName).

Definition call (w : World) (c : Call) : World :=
  match c with
  | Toggle => toggleTheme w
  | SetTheme theme => setTheme theme w
  end.

Definition calls (w : World) (cs : list Call) : World := foldl call w cs.

(** The marker on the document root agrees with the flag. *)
Definition marker_matches (w : World) : Prop :=
  (lit "dark" ∈ classList w ↔ isDarkMode w = true)
  ∧ (lit "light" ∈ classList w ↔ isDarkMode w = false).

End Theme.

(** ** The vocabulary of the specification *)

(** Empty or made of white space only. *)
Definition whitespace_only (v : jsstring) : Prop := Forall (λ c, isWhiteSpace c = true) v.

(** One of the three parts of an address: not empty, no white space, no at sign. *)
Definition address_part (p : jsstring) : Prop :=
  p ≠ [] ∧ Forall (λ c, isWhiteSpace c = false ∧ c ≠ N_of_ascii "@") p.

(** The shape local@domain.tld. *)
Definition local_at_domain_tld (v : jsstring) : Prop :=
  ∃ loc dom tld,
    v = loc ++ lit "@" ++ dom ++ lit "." ++ tld
    ∧ address_part loc ∧ address_part dom ∧ address_part tld.

(** The rules table of the validator: the message of the first column, the
    minimum of the second column and its message. *)
Module Rules.

Definition required (f : Field) : jsstring :=
  match f with
  | Name => lit "Name is required"
  | Email => lit "Email is required"
  | Subject => lit "Subject is required"
  | Message => lit "Message is required"
  end.

Definition minimum (f : Field) : option nat :=
  match f with
  | Name => Some 2
  | Email => None
  | Subject => Some 3
  | Message => Some 10
  end.

Definition too_short (f : Field) : jsstring :=
  match f with
  | Name => lit "Name must be at least 2 characters"
  | Email => lit ""
  | Subject => lit "Subject must be at least 3 characters"
  | Message => lit "Message must be at least 10 characters"
  end.

Definition bad_format : jsstring := lit "Please enter a valid email address".

End Rules.

(** A field passes validation when [validateField] answers the empty string. *)
Definition passes (f : Field) (fd : FormData) : Prop := validateField f (get f fd) = lit "".

(** The invariant of the data model, read on the keys of the error object:
    a key is present only for a field whose current value is invalid. *)
Definition keys_only_for_invalid (s : State) : Prop :=
  ∀ f, is_Some (errors s !! f) → ¬ passes f (formData s).

(** The shown errors never lag behind the form data: a message that is not
    empty is the answer of [validateField] for the current value. *)
Definition errors_current (s : State) : Prop :=
  ∀ f e, errors s !! f = Some e → truthy e = true →
         e = validateField f (get f (formData s)).

(** The re-entrancy guard as the specification words it: while a request
    is pending, a submit is a no-op. *)
Definition no_submit_while_pending : Prop :=
  ∀ s, reachable s → requests s ≠ [] → step s Submit = s.

Definition schedules_timer (ev : Event) : bool :=
  match ev with
  | Settle _ _ => true
  | _ => false
  end.

(** The three values the submission cell takes. *)
Definition submission_known (s : State) : Prop :=
  submission s = Submission.mk Idle (lit "")
  ∨ submission s = Submission.mk Loading (lit "")
  ∨ submission s = Submission.mk Success thanks.

(** What holds while the spinner shows. *)
Definition loading_sound (s : State) : Prop :=
  Submission.status (submission s) = Loading →
  errors s = ∅ ∧ (∀ f, passes f (formData s)) ∧ last (requests s) = Some (formData s).

(** Every pending request carries a form that passes validation. *)
Definition requests_valid (s : State) : Prop :=
  Forall (λ body, ∀ f, passes f body) (requests s).

(** The auto-clear timer gives way to an edit: once the user has edited a
    field, and as long as no new timer has been scheduled since, a timer that
    fires leaves the submission state as it finds it. *)
Definition timer_gives_way_to_edit : Prop :=
  ∀ before field value after i,
    forallb (λ ev, negb (schedules_timer ev)) after = true →
    let s := run initial (before ++ Change field value :: after) in
    submission (step s (Timeout i)) = submission s.

(** A visitor filling the form with values that pass validation. *)
Definition fill : list Event :=
  [Change Name (lit "Al"); Change Email (lit "a@b.co");
   Change Subject (lit "Hey"); Change Message (lit "0123456789")].

(** Ways a request settles: an OK response, a response that is not OK and
    whose body carries a message, a rejected promise. *)
Definition response_ok : Exn + Response := inr (mkResponse true (inr None)).

Definition response_500 : Exn + Response :=
  inr (mkResponse false (inr (Some (lit "Mailbox unavailable")))).

Definition network_down : Exn + Response := inl (mkError (lit "Failed to fetch")).

(** ** Properties of [trim] *)

Section TrimFacts.

Implicit Types s p : jsstring.

Lemma trimStart_nil s : trimStart s = [] ↔ whitespace_only s.
Proof.
  unfold whitespace_only. induction s as [|c s IH]; simpl.
  - split; [constructor | done].
  - destruct (isWhiteSpace c) eqn:Hc.
    + rewrite IH. split; [by constructor | by inversion 1].
    + split; [done | inversion 1; congruence].
Qed.

Lemma trimStart_split s : ∃ p, s = p ++ trimStart s ∧ whitespace_only p.
Proof.
  induction s as [|c s (p & Hs & Hp)]; simpl.
  - exists []. split; [done | constructor].
  - destruct (isWhiteSpace c) eqn:Hc.
    + exists (c :: p). split; [simpl; congruence | by constructor].
    + exists []. split; [done | constructor].
Qed.

Lemma trimStart_head s c s' : trimStart s = c :: s' → isWhiteSpace c = false.
Proof.
  induction s as [|d s IH]; simpl; [done|].
  destruct (isWhiteSpace d) eqn:Hd; [done | congruence].
Qed.

Lemma trimStart_whitespace s : whitespace_only (trimStart s) ↔ whitespace_only s.
Proof.
  destruct (trimStart_split s) as (p & Hs & Hp). split.
  - intros H. rewrite Hs. by apply Forall_app.
  - intros H. rewrite Hs in H. by apply Forall_app in H as [_ ?].
Qed.

Lemma trim_nil s : trim s = [] ↔ whitespace_only s.
Proof.
  unfold trim, trimEnd.
  rewrite <- (trimStart_whitespace s).
  split.
  - intros H.
    assert (Hr : trimStart (rev (trimStart s)) = []).
    { destruct (trimStart (rev (trimStart s))); [done|].
      simpl in H. by apply app_eq_nil in H as [_ ?]. }
    apply trimStart_nil in Hr. unfold whitespace_only in *.
    rewrite <- (rev_involutive (trimStart s)). by apply Forall_rev.
  - intros H. destruct (trimStart s) as [|c t] eqn:E; [done|].
    apply trimStart_head in E. inversion H; congruence.
Qed.

Lemma truthy_trim s : truthy (trim s) = false ↔ whitespace_only s.
Proof. rewrite <- trim_nil. by destruct (trim s). Qed.

End TrimFacts.

(** ** Correctness of the matcher *)

Section RegexFacts.

Implicit Types (r : regex) (s : jsstring) (c : N).

Lemma nullable_Matches r : nullable r = true ↔ Matches r [].
Proof.
  induction r as [| |p|r1 IH1 r2 IH2|r1 IH1 r2 IH2|r1 IH1]; simpl.
  - split; [done | inversion 1].
  - split; [constructor | done].
  - split; [done | inversion 1].
  - rewrite andb_true_iff, IH1, IH2. split.
    + intros [H1 H2]. apply (MCat _ _ [] [] H1 H2).
    + inversion 1 as [| |? ? s1 s2 H1 H2 Hr Hs| | | |]; subst.
      apply app_eq_nil in Hs as [-> ->]. done.
  - rewrite orb_true_iff, IH1, IH2. split.
    + intros [H|H]; [by apply MAltL | by apply MAltR].
    + inversion 1; subst; auto.
  - split; [constructor | done].
Qed.

Lemma Matches_Star_cons r c s :
  Matches (Star r) (c :: s) →
  ∃ s1 s2, s = s1 ++ s2 ∧ Matches r (c :: s1) ∧ Matches (Star r) s2.
Proof.
  intros H. remember (Star r) as r' eqn:Er. remember (c :: s) as w eqn:Ew.
  revert s Ew. induction H as [| | | | | |r0 s1 s2 H1 _ H2 IH2]; intros t Ew; try discriminate.
  inversion Er; subst. destruct s1 as [|d s1]; simpl in Ew.
  - by apply IH2.
  - inversion Ew; subst. eauto.
Qed.

Lemma deriv_Matches r : ∀ c s, Matches (deriv c r) s ↔ Matches r (c :: s).
Proof.
  induction r as [| |p|r1 IH1 r2 IH2|r1 IH1 r2 IH2|r1 IH1]; intros c s; simpl.
  - split; inversion 1.
  - split; inversion 1.
  - destruct (p c) eqn:Hp; split; inversion 1; subst; try congruence.
    + by constructor.
    + constructor.
  - assert (Hcat : Matches (Cat (deriv c r1) r2) s → Matches (Cat r1 r2) (c :: s)).
    { inversion 1 as [| |? ? s1 s2 H1 H2| | | |]; subst.
      apply IH1 in H1. apply (MCat _ _ (c :: s1) s2 H1 H2). }
    assert (Hback : Matches (Cat r1 r2) (c :: s) →
                    Matches (Cat (deriv c r1) r2) s ∨ (Matches r1 [] ∧ Matches (deriv c r2) s)).
    { inversion 1 as [| |? ? s1 s2 H1 H2 Hr Hs| | | |]; subst.
      destruct s1 as [|d s1]; simpl in Hs.
      - subst. right. split; [done | by apply IH2].
      - inversion Hs; subst. left. constructor; [by apply IH1 | done]. }
    destruct (nullable r1) eqn:Hn.
    + split.
      * inversion 1; subst; [auto|].
        apply (MCat _ _ [] (c :: s)); [by apply nullable_Matches | by apply IH2].
      * intros H. destruct (Hback H) as [?|[_ ?]]; [by apply MAltL | by apply MAltR].
    + split; [done|].
      intros H. destruct (Hback H) as [?|[Hnil _]]; [done|].
      apply nullable_Matches in Hnil. congruence.
  - split.
    + inversion 1; subst; [apply MAltL; by apply IH1 | apply MAltR; by apply IH2].
    + inversion 1; subst; [apply MAltL; by apply IH1 | apply MAltR; by apply IH2].
  - split.
    + inversion 1 as [| |? ? s1 s2 H1 H2| | | |]; subst.
      apply IH1 in H1. apply (MStarApp _ (c :: s1) s2 H1 H2).
    + intros H. destruct (Matches_Star_cons _ _ _ H) as (s1 & s2 & -> & H1 & H2).
      constructor; [by apply IH1 | done].
Qed.

Lemma test_Matches r s : test r s = true ↔ Matches r s.
Proof.
  revert r. induction s as [|c s IH]; intros r; simpl.
  - apply nullable_Matches.
  - rewrite IH. apply deriv_Matches.
Qed.

Lemma Matches_Cat r1 r2 s :
  Matches (Cat r1 r2) s ↔ ∃ s1 s2, s = s1 ++ s2 ∧ Matches r1 s1 ∧ Matches r2 s2.
Proof.
  split.
  - inversion 1; subst; eauto.
  - intros (s1 & s2 & -> & H1 & H2). by constructor.
Qed.

Lemma Matches_Class p s : Matches (Class p) s ↔ ∃ c, s = [c] ∧ p c = true.
Proof.
  split.
  - inversion 1; subst; eauto.
  - intros (c & -> & Hc). by constructor.
Qed.

Lemma Matches_Chr a s : Matches (Chr a) s ↔ s = [N_of_ascii a].
Proof.
  unfold Chr. rewrite Matches_Class. split.
  - intros (c & -> & Hc). apply N.eqb_eq in Hc. by subst.
  - intros ->. eexists. split; [done | apply N.eqb_refl].
Qed.

Lemma Matches_Star_Class p s : Matches (Star (Class p)) s ↔ Forall (λ c, p c = true) s.
Proof.
  split.
  - intros H. remember (Star (Class p)) as r eqn:Er.
    induction H as [| | | | | |r0 s1 s2 H1 _ H2 IH2]; try discriminate.
    + constructor.
    + inversion Er; subst. apply Forall_app. split; [|by apply IH2].
      apply Matches_Class in H1 as (c & -> & Hc). by repeat constructor.
  - induction 1 as [|c t Hc _ IH]; [constructor|].
    apply (MStarApp _ [c] t); [by constructor | done].
Qed.

Lemma Matches_Plus_Class p s :
  Matches (Plus (Class p)) s ↔ s ≠ [] ∧ Forall (λ c, p c = true) s.
Proof.
  unfold Plus. rewrite Matches_Cat. split.
  - intros (s1 & s2 & -> & H1 & H2).
    apply Matches_Class in H1 as (c & -> & Hc). apply Matches_Star_Class in H2.
    split; [done | by constructor].
  - intros [Hne H]. destruct H as [|c t Hc Ht]; [done|].
    exists [c], t. split; [done|]. split; [by constructor | by apply Matches_Star_Class].
Qed.

Lemma notSpaceAt_true c :
  notSpaceAt c = true ↔ isWhiteSpace c = false ∧ c ≠ N_of_ascii "@".
Proof.
  unfold notSpaceAt. rewrite negb_true_iff, orb_false_iff, N.eqb_neq. done.
Qed.

Lemma Matches_part s : Matches (Plus (Class notSpaceAt)) s ↔ address_part s.
Proof.
  rewrite Matches_Plus_Class. unfold address_part.
  apply and_iff_compat_l. apply Forall_iff. intros c. apply notSpaceAt_true.
Qed.

(** The pattern of the source accepts exactly the shape local@domain.tld. *)
Lemma emailRegex_test v : test emailRegex v = true ↔ local_at_domain_tld v.
Proof.
  rewrite test_Matches. unfold emailRegex, local_at_domain_tld. split.
  - intros H.
    apply Matches_Cat in H as (loc & s1 & -> & Hloc & H).
    apply Matches_Cat in H as (at_ & s2 & -> & Hat & H).
    apply Matches_Cat in H as (dom & s3 & -> & Hdom & H).
    apply Matches_Cat in H as (dot & tld & -> & Hdot & Htld).
    apply Matches_Chr in Hat as ->. apply Matches_Chr in Hdot as ->.
    exists loc, dom, tld. rewrite <- !Matches_part. done.
  - intros (loc & dom & tld & -> & Hloc & Hdom & Htld).
    rewrite <- Matches_part in Hloc, Hdom, Htld.
    repeat (constructor; try done).
Qed.

End RegexFacts.

(** ** The validator *)

Section Validator.

Implicit Types (f : Field) (v : jsstring) (fd : FormData).

Lemma validateField_unfold f v :
  validateField f v =
    if negb (truthy (trim v)) then Rules.required f
    else match Rules.minimum f with
         | Some n => if length (trim v) <? n then Rules.too_short f else lit ""
         | None => if negb (test emailRegex v) then Rules.bad_format else lit ""
         end.
Proof. by destruct f. Qed.

Lemma truthy_trim_true v : truthy (trim v) = true ↔ ¬ whitespace_only v.
Proof. rewrite <- truthy_trim. by destruct (truthy (trim v)). Qed.

Lemma test_emailRegex_false v : test emailRegex v = false ↔ ¬ local_at_domain_tld v.
Proof. rewrite <- emailRegex_test. by destruct (test emailRegex v). Qed.

Lemma address_part_no_space p : address_part p → Forall (λ c, isWhiteSpace c = false) p.
Proof. intros [_ H]. eapply Forall_impl; [exact H|]. by intros c [? _]. Qed.

Lemma local_at_domain_tld_no_space v :
  local_at_domain_tld v → Forall (λ c, isWhiteSpace c = false) v.
Proof.
  intros (loc & dom & tld & -> & Hl & Hd & Ht).
  repeat (apply Forall_app; split); auto using address_part_no_space.
  - by repeat constructor.
  - by repeat constructor.
Qed.

Lemma passes_truthy f fd : passes f fd ↔ truthy (validateField f (get f fd)) = false.
Proof. unfold passes. by destruct (validateField f (get f fd)). Qed.

Lemma collectErrors_lookup fd f :
  (collectErrors fd).1 !! f =
    if truthy (validateField f (get f fd)) then Some (validateField f (get f fd)) else None.
Proof.
  unfold collectErrors, Object_keys.
  destruct f; cbn [foldl get];
    generalize (validateField Name (name fd)) (validateField Email (email fd))
               (validateField Subject (subject fd)) (validateField Message (message fd));
    intros e1 e2 e3 e4;
    destruct (truthy e1), (truthy e2), (truthy e3), (truthy e4); cbn [fst];
    by simplify_map_eq.
Qed.

Lemma collectErrors_valid fd :
  (collectErrors fd).2 =
    forallb (λ f, negb (truthy (validateField f (get f fd)))) [Name; Email; Subject; Message].
Proof.
  unfold collectErrors, Object_keys. cbn [foldl get forallb].
  generalize (validateField Name (name fd)) (validateField Email (email fd))
             (validateField Subject (subject fd)) (validateField Message (message fd)).
  intros e1 e2 e3 e4.
  by destruct (truthy e1), (truthy e2), (truthy e3), (truthy e4).
Qed.

Lemma collectErrors_valid_iff fd : (collectErrors fd).2 = true ↔ ∀ f, passes f fd.
Proof.
  rewrite collectErrors_valid, forallb_forall. split.
  - intros H f. apply passes_truthy, negb_true_iff, H. destruct f; simpl; auto.
  - intros H f _. apply negb_true_iff, passes_truthy, H.
Qed.

Example validateField_plain_address : validateField Email (lit "a@b.co") = lit "".
Proof. reflexivity. Qed.

Example validateField_two_dots : validateField Email (lit "a.b@c.d.e") = lit "".
Proof. reflexivity. Qed.

Example validateField_no_tld :
  validateField Email (lit "a@b") = lit "Please enter a valid email address".
Proof. reflexivity. Qed.

Example validateField_padded_name :
  validateField Name (lit "  x ") = lit "Name must be at least 2 characters".
Proof. reflexivity. Qed.

Example validateField_nbsp_only :
  validateField Subject [0xA0; 0x2003; 0x0A]%N = lit "Subject is required".
Proof. reflexivity. Qed.

Lemma validateField_required f v :
  whitespace_only v → validateField f v = Rules.required f.
Proof. intros H. rewrite validateField_unfold. apply truthy_trim in H. by rewrite H. Qed.

Lemma validateField_too_short f v n :
  ¬ whitespace_only v → Rules.minimum f = Some n → length (trim v) < n →
  validateField f v = Rules.too_short f.
Proof.
  intros H Hn Hlt. rewrite validateField_unfold.
  apply truthy_trim_true in H. rewrite H, Hn. simpl.
  apply Nat.ltb_lt in Hlt. by rewrite Hlt.
Qed.

Lemma validateField_bad_format v :
  ¬ whitespace_only v → ¬ local_at_domain_tld v →
  validateField Email v = Rules.bad_format.
Proof.
  intros H Hbad. rewrite validateField_unfold.
  apply truthy_trim_true in H. rewrite H. simpl.
  apply test_emailRegex_false in Hbad. by rewrite Hbad.
Qed.

Lemma validateField_pass f v :
  ¬ whitespace_only v →
  (∀ n, Rules.minimum f = Some n → n ≤ length (trim v)) →
  (f = Email → local_at_domain_tld v) →
  validateField f v = lit "".
Proof.
  intros H Hmin Hfmt. rewrite validateField_unfold.
  apply truthy_trim_true in H. rewrite H. simpl.
  destruct (Rules.minimum f) as [n|] eqn:Hn.
  - specialize (Hmin n eq_refl). apply Nat.ltb_ge in Hmin. by rewrite Hmin.
  - assert (f = Email) as -> by (by destruct f).
    specialize (Hfmt eq_refl). apply emailRegex_test in Hfmt. by rewrite Hfmt.
Qed.

(** C3: [validateField] follows the rules table, the first failing rule
    deciding the answer.  A value that is empty or white space only gets the
    required message of its field; otherwise a name, subject or message whose
    trimmed length is below 2, 3 or 10 gets its length message; otherwise an
    email that does not have the shape local@domain.tld gets the format
    message; a value that passes every rule of its field gets the empty string,
    and so does "a@b.co" as an email. *)
Theorem validateField_rules (field : Field) (value : jsstring) :
  (whitespace_only value → validateField field value = Rules.required field)
  ∧ (¬ whitespace_only value →
     ∀ n, Rules.minimum field = Some n → length (trim value) < n →
          validateField field value = Rules.too_short field)
  ∧ (¬ whitespace_only value → field = Email → ¬ local_at_domain_tld value →
     validateField field value = Rules.bad_format)
  ∧ (¬ whitespace_only value →
     (∀ n, Rules.minimum field = Some n → n ≤ length (trim value)) →
     (field = Email → local_at_domain_tld value) →
     validateField field value = lit "")
  ∧ validateField Email (lit "a@b.co") = lit "".
Proof.
  split; [|split; [|split; [|split]]].
  - apply validateField_required.
  - intros H n. by apply validateField_too_short.
  - intros H ->. by apply validateField_bad_format.
  - apply validateField_pass.
  - reflexivity.
Qed.

Lemma validateField_rules_witness :
  validateField Name (lit "  ") = lit "Name is required"
  ∧ validateField Subject (lit " ab ") = lit "Subject must be at least 3 characters"
  ∧ validateField Email (lit "a@b") = lit "Please enter a valid email address"
  ∧ validateField Message (lit "hello world") = lit "".
Proof.
  split; [|split; [|split]].
  - apply (validateField_rules Name (lit "  ")). by repeat constructor.
  - destruct (validateField_rules Subject (lit " ab ")) as (_ & H & _).
    apply (H ltac:(by apply truthy_trim_true) 3); [reflexivity | vm_compute; lia].
  - destruct (validateField_rules Email (lit "a@b")) as (_ & _ & H & _).
    apply H; [by apply truthy_trim_true | reflexivity |].
    by apply test_emailRegex_false.
  - destruct (validateField_rules Message (lit "hello world")) as (_ & _ & _ & H & _).
    apply H; [by apply truthy_trim_true | | done].
    intros n [= <-]. vm_compute. lia.
Defined.

(** C10: the format rule of the email field reads the value as typed, not
    its trimmed form.  A value that is not white space only but has a white
    space character somewhere gets the format message; so does " a@b.co ",
    although the pattern accepts what [trim] leaves of it. *)
Theorem email_format_reads_raw_value :
  (∀ value, ¬ whitespace_only value → Exists (λ c, isWhiteSpace c = true) value →
            validateField Email value = lit "Please enter a valid email address")
  ∧ validateField Email (lit " a@b.co ") = lit "Please enter a valid email address"
  ∧ trim (lit " a@b.co ") = lit "a@b.co"
  ∧ test emailRegex (trim (lit " a@b.co ")) = true.
Proof.
  split; [|by vm_compute].
  intros value Hne Hsp.
  apply validateField_bad_format; [done|].
  intros Hshape. apply local_at_domain_tld_no_space in Hshape.
  apply Exists_exists in Hsp as (c & Hin & Hc).
  rewrite Forall_forall in Hshape. specialize (Hshape c Hin). congruence.
Qed.

Lemma email_format_reads_raw_value_witness :
  validateField Email (lit "a b@c.de") = lit "Please enter a valid email address".
Proof.
  apply (proj1 email_format_reads_raw_value).
  - by apply truthy_trim_true.
  - apply Exists_cons_tl, Exists_cons_hd. reflexivity.
Defined.

End Validator.

(** ** The form as a whole *)

Section Form.

Implicit Types (s : State) (f : Field) (v : jsstring).

Lemma validateForm_unfold s :
  validateForm s = (setErrors (collectErrors (formData s)).1 s, (collectErrors (formData s)).2).
Proof. unfold validateForm. by destruct (collectErrors (formData s)). Qed.

Lemma validateForm_facts s :
  ((validateForm s).2 = true ↔ ∀ f, passes f (formData s))
  ∧ (∀ f, f ∈ dom (errors (validateForm s).1) ↔ ¬ passes f (formData s))
  ∧ (∀ f, ¬ passes f (formData s) →
          errors (validateForm s).1 !! f = Some (validateField f (get f (formData s))))
  ∧ (errors (validateForm s).1 = ∅ ↔ (validateForm s).2 = true)
  ∧ (validateForm s).1 = setErrors (collectErrors (formData s)).1 s.
Proof.
  rewrite validateForm_unfold. cbn [fst snd errors setErrors].
  assert (Hdom : ∀ f, is_Some ((collectErrors (formData s)).1 !! f) ↔ ¬ passes f (formData s)).
  { intros f. rewrite collectErrors_lookup, passes_truthy.
    destruct (truthy _).
    - split; [by intros _ ? | by eexists].
    - split; [by intros [? ?] | by intros []]. }
  split; [apply collectErrors_valid_iff|].
  split; [intros f; by rewrite elem_of_dom|].
  split.
  { intros f Hf. rewrite collectErrors_lookup.
    rewrite passes_truthy in Hf. by destruct (truthy _). }
  split; [|done].
  rewrite collectErrors_valid_iff, map_empty. split.
  - intros H f. destruct (decide (passes f (formData s))) as [|Hn]; [done|].
    apply Hdom in Hn as [e He]. rewrite H in He. done.
  - intros H f. apply eq_None_not_Some. rewrite Hdom. intros Hn. apply Hn, H.
Qed.


(** C2: [validateForm] returns true exactly when each of the four fields
    passes [validateField]; the error object it installs has a key for the
    invalid fields and for no other, with the message of [validateField] as
    its value, so it is empty exactly when the form is valid; and it takes the
    place of the previous error object in a single [setErrors], whatever that
    object held. *)
Theorem validateForm_spec (s : State) :
  ((validateForm s).2 = true ↔ ∀ f, passes f (formData s))
  ∧ (∀ f, f ∈ dom (errors (validateForm s).1) ↔ ¬ passes f (formData s))
  ∧ (∀ f, ¬ passes f (formData s) →
          errors (validateForm s).1 !! f = Some (validateField f (get f (formData s))))
  ∧ (errors (validateForm s).1 = ∅ ↔ (validateForm s).2 = true)
  ∧ (validateForm s).1 = setErrors (collectErrors (formData s)).1 s
  ∧ ∀ previous, errors (validateForm (setErrors previous s)).1 = errors (validateForm s).1.
Proof.
  destruct (validateForm_facts s) as (H1 & H2 & H3 & H4 & H5).
  repeat (split; [assumption|]).
  intros previous. by rewrite !validateForm_unfold.
Qed.

End Form.

(** ** The submission controller *)

Section Controller.

Implicit Types (s : State) (f : Field) (v : jsstring) (ev : Event).

Lemma get_set_eq f v fd : get f (set f v fd) = v.
Proof. by destruct f. Qed.

Lemma get_set_ne f g v fd : g ≠ f → get g (set f v fd) = get g fd.
Proof. by destruct f, g. Qed.

(** Both ways out of the [try] block end in the same statements. *)
Lemma resumeSubmit_showSuccess result s : resumeSubmit result s = showSuccess s.
Proof.
  unfold resumeSubmit, tryBlock, catchBlock.
  destruct result as [e|r]; [done|].
  destruct (ok r); [done|]. by destruct (json r).
Qed.

Lemma handleInputChange_errors f v s :
  errors (handleInputChange f v s) =
    if truthy_opt (errors s !! f) then <[f := lit ""]> (errors s) else errors s.
Proof.
  unfold handleInputChange.
  by destruct (truthy_opt (errors s !! f)),
              (negb (bool_decide (Submission.status (submission s) = Idle))).
Qed.

Lemma handleInputChange_formData f v s :
  formData (handleInputChange f v s) = set f v (formData s).
Proof.
  unfold handleInputChange.
  by destruct (truthy_opt (errors s !! f)),
              (negb (bool_decide (Submission.status (submission s) = Idle))).
Qed.

Lemma handleInputChange_submission f v s :
  submission (handleInputChange f v s) =
    if bool_decide (Submission.status (submission s) = Idle)
    then submission s else idleSubmission.
Proof.
  unfold handleInputChange.
  by destruct (truthy_opt (errors s !! f)),
              (bool_decide (Submission.status (submission s) = Idle)).
Qed.

Lemma handleInputChange_pending f v s :
  requests (handleInputChange f v s) = requests s
  ∧ timers (handleInputChange f v s) = timers s.
Proof.
  unfold handleInputChange.
  by destruct (truthy_opt (errors s !! f)),
              (negb (bool_decide (Submission.status (submission s) = Idle))).
Qed.

Lemma run_snoc s trace ev : run s (trace ++ [ev]) = step (run s trace) ev.
Proof. unfold run. by rewrite foldl_app. Qed.

Lemma reachable_initial : reachable initial.
Proof. by exists []. Qed.

Lemma reachable_step s ev : reachable s → reachable (step s ev).
Proof. intros [trace ->]. exists (trace ++ [ev]). by rewrite run_snoc. Qed.

Lemma reachable_ind (P : State → Prop) :
  P initial → (∀ s ev, reachable s → P s → P (step s ev)) → ∀ s, reachable s → P s.
Proof.
  intros H0 Hstep s [trace ->].
  induction trace as [|ev trace IH] using rev_ind; [done|].
  rewrite run_snoc. apply Hstep; [by exists trace | done].
Qed.

(** C7: editing a field clears the error of that field and of no other
    field: after the edit the form shows no error for it, and the entry of
    every other field is what it was.  If the submission status is not idle,
    the edit itself puts the submission state back to idle with an empty
    message; no timer has to fire for that, and the pending timers are left
    as they are. *)
Theorem handleInputChange_frame (s : State) (field : Field) (value : jsstring) :
  let s' := step s (Change field value) in
  hasError s' field = false
  ∧ (∀ other, other ≠ field → errors s' !! other = errors s !! other)
  ∧ (Submission.status (submission s) ≠ Idle → submission s' = Submission.mk Idle (lit ""))
  ∧ (Submission.status (submission s) = Idle → submission s' = submission s)
  ∧ formData s' = set field value (formData s)
  ∧ timers s' = timers s.
Proof.
  cbn [step]. unfold hasError.
  rewrite handleInputChange_errors, handleInputChange_submission, handleInputChange_formData.
  split; [|split; [|split; [|split; [|split]]]].
  - destruct (truthy_opt (errors s !! field)) eqn:E; [|done].
    by rewrite lookup_insert_eq.
  - intros other Hne. destruct (truthy_opt (errors s !! field)); [|done].
    by rewrite lookup_insert_ne.
  - intros Hne. by rewrite bool_decide_eq_false_2.
  - intros Heq. by rewrite bool_decide_eq_true_2.
  - done.
  - apply handleInputChange_pending.
Qed.

Lemma handleInputChange_frame_witness :
  let s := step (step initial Submit) (Change Email (lit "a@b.co")) in
  errors s !! Name = Some (lit "Name is required")
  ∧ submission (step (mkState emptyForm ∅ (Submission.mk Success thanks) [] [5000%N])
                  (Change Name (lit "A")))
    = Submission.mk Idle (lit "")
  ∧ submission (step initial (Change Name (lit "A"))) = submission initial.
Proof.
  split; [|split].
  - destruct (handleInputChange_frame (step initial Submit) Email (lit "a@b.co"))
      as (_ & H & _).
    cbv zeta. rewrite (H Name); [reflexivity | discriminate].
  - destruct (handleInputChange_frame
                (mkState emptyForm ∅ (Submission.mk Success thanks) [] [5000%N])
                Name (lit "A")) as (_ & _ & H & _).
    apply H. discriminate.
  - destruct (handleInputChange_frame initial Name (lit "A")) as (_ & _ & _ & H & _).
    apply H. reflexivity.
Defined.

(** C8: when a pending request settles with an OK response, every field
    of the form data is the empty string, the error object is empty, and the
    submission state is success with the thank-you message. *)
Theorem submit_ok_clears_form (s : State) (i : nat) (response : Response) :
  is_Some (requests s !! i) → ok response = true →
  let s' := step s (Settle i (inr response)) in
  formData s' = mkFormData (lit "") (lit "") (lit "") (lit "")
  ∧ (∀ f, get f (formData s') = lit "")
  ∧ errors s' = ∅
  ∧ submission s' = Submission.mk Success thanks.
Proof.
  intros [body Hb] Hok. cbn [step]. rewrite Hb.
  unfold resumeSubmit, tryBlock. rewrite Hok.
  repeat split. by intros [].
Qed.

Lemma submit_ok_clears_form_witness :
  let s := run initial (fill ++ [Submit; Settle 0 response_ok]) in
  formData s = emptyForm ∧ errors s = ∅ ∧ Submission.status (submission s) = Success.
Proof.
  destruct (submit_ok_clears_form (run initial (fill ++ [Submit])) 0
              (mkResponse true (inr None))) as (H1 & _ & H2 & H3).
  - by eexists.
  - reflexivity.
  - change (run initial (fill ++ [Submit; Settle 0 response_ok]))
      with (step (run initial (fill ++ [Submit])) (Settle 0 (inr (mkResponse true (inr None))))).
    cbv zeta. rewrite H1, H2, H3. done.
Defined.

Lemma handleSubmit_timers s : timers (handleSubmit s) = timers s.
Proof.
  unfold handleSubmit. rewrite validateForm_unfold.
  by destruct (negb (collectErrors (formData s)).2).
Qed.

Lemma handleSubmit_formData s : formData (handleSubmit s) = formData s.
Proof.
  unfold handleSubmit. rewrite validateForm_unfold.
  by destruct (negb (collectErrors (formData s)).2).
Qed.

Lemma handleSubmit_errors s : errors (handleSubmit s) = (collectErrors (formData s)).1.
Proof.
  unfold handleSubmit. rewrite validateForm_unfold.
  by destruct (negb (collectErrors (formData s)).2).
Qed.

(** C1, as the code has it: a submission that passed validation and whose
    request fails is not taken to the error state.  From the loading state of
    a filled form, whatever the request settles with (a response that is not
    OK, a rejected promise) the controller shows the success message and
    empties the form; the reason of the failure appears nowhere. *)
Theorem failed_submission_shown_as_success :
  let s := run initial (fill ++ [Submit]) in
  Submission.status (submission s) = Loading
  ∧ formData s = mkFormData (lit "Al") (lit "a@b.co") (lit "Hey") (lit "0123456789")
  ∧ submission (step s (Settle 0 response_500)) = Submission.mk Success thanks
  ∧ formData (step s (Settle 0 response_500)) = emptyForm
  ∧ submission (step s (Settle 0 network_down)) = Submission.mk Success thanks
  ∧ formData (step s (Settle 0 network_down)) = emptyForm
  ∧ ∀ result, Submission.status (submission (step s (Settle 0 result))) ≠ Error.
Proof.
  cbv zeta. repeat (split; [reflexivity|]).
  intros result. cbn [step].
  change (requests (run initial (fill ++ [Submit])) !! 0)
    with (Some (mkFormData (lit "Al") (lit "a@b.co") (lit "Hey") (lit "0123456789"))).
  cbv iota beta. by rewrite resumeSubmit_showSuccess.
Qed.

Lemma errors_current_step s ev : errors_current s → errors_current (step s ev).
Proof.
  intros Inv. destruct ev as [g v| |i result|i]; cbn [step].
  - intros f e. rewrite handleInputChange_errors, handleInputChange_formData.
    destruct (decide (f = g)) as [->|Hne].
    + destruct (truthy_opt (errors s !! g)) eqn:Hg.
      * rewrite lookup_insert_eq. by intros [= <-].
      * intros He Ht. unfold truthy_opt in Hg. rewrite He in Hg. congruence.
    + rewrite get_set_ne by done.
      destruct (truthy_opt (errors s !! g)); [rewrite lookup_insert_ne by done|]; apply Inv.
  - destruct (submitDisabled s); [done|].
    intros f e. rewrite handleSubmit_errors, handleSubmit_formData, collectErrors_lookup.
    destruct (truthy _); [by intros [= <-] | done].
  - destruct (requests s !! i) as [body|]; [|done].
    rewrite resumeSubmit_showSuccess. intros f e. cbn. by rewrite lookup_empty.
  - by destruct (timers s !! i).
Qed.

Lemma errors_current_reachable s : reachable s → errors_current s.
Proof.
  apply reachable_ind.
  - intros f e. cbn. by rewrite lookup_empty.
  - intros s' ev _. apply errors_current_step.
Qed.

(** C4, as stated on the keys of the error object, fails: after a submit
    of the empty form and an edit of the name to a valid value, the key of the
    name is still there, with the empty string as its value. *)
Lemma stale_key_after_edit : ¬ (∀ s, reachable s → keys_only_for_invalid s).
Proof.
  intros H.
  apply (H (run initial [Submit; Change Name (lit "Al")])
           ltac:(by eexists) Name).
  - exists (lit ""). reflexivity.
  - reflexivity.
Qed.

(** C4, amended: in every reachable state the error object holds a message
    that is not empty for a field only when the current value of that field
    fails [validateField], and the message is the one [validateField] gives for
    the current value. *)
Theorem shown_errors_are_current (s : State) (field : Field) :
  reachable s → hasError s field = true →
  ¬ passes field (formData s)
  ∧ errors s !! field = Some (validateField field (get field (formData s))).
Proof.
  intros Hr Hf. apply errors_current_reachable in Hr.
  unfold hasError, truthy_opt in Hf.
  destruct (errors s !! field) as [e|] eqn:He; [|done].
  specialize (Hr field e He Hf). subst e. split; [|done].
  rewrite passes_truthy. congruence.
Qed.

Lemma shown_errors_are_current_witness :
  ¬ passes Email (formData (run initial [Submit; Change Name (lit "Al")])).
Proof.
  apply (shown_errors_are_current (run initial [Submit; Change Name (lit "Al")]) Email).
  - by eexists.
  - reflexivity.
Defined.

(** C5, as stated, fails: the timer of a first success is still pending
    after the user has typed again and submitted again, and when it fires it
    takes the controller from loading to idle while the second request is
    pending. *)
Lemma timer_fires_after_edit : ¬ timer_gives_way_to_edit.
Proof.
  intros H.
  specialize (H (fill ++ [Submit; Settle 0 response_ok])
                Name (lit "Al")
                [Change Email (lit "a@b.co"); Change Subject (lit "Hey");
                 Change Message (lit "0123456789"); Submit]
                0 eq_refl).
  vm_compute in H. discriminate H.
Qed.

(** C5, amended: when a request settles the controller enters the success
    state and one timer with a delay of 5000 ms is scheduled; when a pending
    timer fires it is gone (one shot), the submission state is idle with an
    empty message, and form data, error object and pending requests are
    untouched.  No edit and no submit cancels a timer: both leave the pending
    timers as they are. *)
Theorem auto_clear_timer (s : State) :
  (∀ i result, is_Some (requests s !! i) →
     Submission.status (submission (step s (Settle i result))) = Success
     ∧ timers (step s (Settle i result)) = timers s ++ [5000%N])
  ∧ (∀ i, is_Some (timers s !! i) →
     submission (step s (Timeout i)) = Submission.mk Idle (lit "")
     ∧ timers (step s (Timeout i)) = delete i (timers s)
     ∧ formData (step s (Timeout i)) = formData s
     ∧ errors (step s (Timeout i)) = errors s
     ∧ requests (step s (Timeout i)) = requests s)
  ∧ (∀ field value, timers (step s (Change field value)) = timers s)
  ∧ timers (step s Submit) = timers s.
Proof.
  split; [|split; [|split]].
  - intros i result [body Hb]. cbn [step]. rewrite Hb, resumeSubmit_showSuccess. done.
  - intros i [d Hd]. cbn [step]. rewrite Hd. done.
  - intros field value. apply handleInputChange_pending.
  - cbn [step]. destruct (submitDisabled s); [done | apply handleSubmit_timers].
Qed.

Lemma auto_clear_timer_witness :
  let s := run initial (fill ++ [Submit]) in
  timers (step s (Settle 0 response_ok)) = [5000%N]
  ∧ submission (step (step s (Settle 0 response_ok)) (Timeout 0)) = Submission.mk Idle (lit "").
Proof.
  split.
  - destruct (auto_clear_timer (run initial (fill ++ [Submit]))) as (H & _).
    destruct (H 0 response_ok) as [_ Ht]; [by eexists|].
    cbv zeta. rewrite Ht. reflexivity.
  - destruct (auto_clear_timer
                (step (run initial (fill ++ [Submit])) (Settle 0 response_ok)))
      as (_ & H & _).
    destruct (H 0) as [Hs _]; [by eexists|]. exact Hs.
Defined.

(** [handleSubmit] does not look at the status: the guard against a second
    submit is the disabled button alone. *)
Lemma handleSubmit_unguarded :
  let s := run initial (fill ++ [Submit]) in
  Submission.status (submission s) = Loading ∧ length (requests (handleSubmit s)) = 2.
Proof. split; reflexivity. Qed.

(** An edit while a request is pending puts the status back to idle and
    with it enables the button again. *)
Lemma edit_while_pending_enables_submit :
  let s := run initial (fill ++ [Submit; Change Name (lit "Al")]) in
  length (requests s) = 1 ∧ submitDisabled s = false
  ∧ length (requests (step s Submit)) = 2.
Proof. repeat split; reflexivity. Qed.

End Controller.

(** ** The theme hook *)

Section ThemeFacts.

Import Theme.

Implicit Types w : World.

Lemma dark_ne_light : lit "dark" ≠ lit "light".
Proof. discriminate. Qed.

Lemma applyThemeToDOM_classList isDark w :
  classList (applyThemeToDOM isDark w) =
    if isDark then ({[lit "dark"]} ∪ classList w) ∖ {[lit "light"]}
    else ({[lit "light"]} ∪ classList w) ∖ {[lit "dark"]}.
Proof. by destruct isDark. Qed.

Lemma applyThemeToDOM_marker isDark w :
  (lit "dark" ∈ classList (applyThemeToDOM isDark w) ↔ isDark = true)
  ∧ (lit "light" ∈ classList (applyThemeToDOM isDark w) ↔ isDark = false).
Proof.
  rewrite applyThemeToDOM_classList. pose proof dark_ne_light as Hne.
  destruct isDark;
    rewrite !elem_of_difference, !elem_of_union, !elem_of_singleton;
    intuition congruence.
Qed.

Lemma applyThemeToDOM_rest isDark w :
  isDarkMode (applyThemeToDOM isDark w) = isDarkMode w
  ∧ localStorage (applyThemeToDOM isDark w) = localStorage w.
Proof. by destruct isDark. Qed.

(** A stored empty string is falsy and is treated like a missing key. *)
Lemma initialize_empty_string w :
  window_defined w = true → getItem key w = Some (lit "") →
  initialize w = setItem key (lit "dark") (applyThemeToDOM true (setIsDarkMode true w)).
Proof. intros Hw Hs. unfold initialize. by rewrite Hw, Hs. Qed.

(** C9: in a browser, when nothing is stored under the preference key,
    [initialize] sets the dark flag, writes the string "dark" under the key
    and leaves the document root with the dark marker and without the light
    one; when a string (not empty) is stored under the key, the dark flag is
    true exactly when that string is "dark", the matching marker is the one on
    the document root, and the storage is left as it was. *)
Theorem initialize_spec (w : World) :
  window_defined w = true →
  (getItem key w = None →
     isDarkMode (initialize w) = true
     ∧ localStorage (initialize w) = <[key := lit "dark"]> (localStorage w)
     ∧ lit "dark" ∈ classList (initialize w)
     ∧ lit "light" ∉ classList (initialize w))
  ∧ (∀ saved, getItem key w = Some saved → saved ≠ lit "" →
     (isDarkMode (initialize w) = true ↔ saved = lit "dark")
     ∧ (lit "dark" ∈ classList (initialize w) ↔ saved = lit "dark")
     ∧ (lit "light" ∈ classList (initialize w) ↔ saved ≠ lit "dark")
     ∧ localStorage (initialize w) = localStorage w).
Proof.
  intros Hw. unfold initialize. rewrite Hw. split.
  - intros Hnone. rewrite Hnone. cbn [truthy_opt].
    destruct (applyThemeToDOM_marker true (setIsDarkMode true w)) as [Hd Hl].
    repeat split.
    + by apply Hd.
    + intros Hin. by apply Hl in Hin.
  - intros saved Hsaved Hne. rewrite Hsaved. cbn [truthy_opt].
    destruct saved as [|c saved]; [done|]. cbn [truthy].
    set (isDark := bool_decide (Some (c :: saved) = Some (lit "dark"))).
    assert (HisDark : isDark = true ↔ c :: saved = lit "dark").
    { unfold isDark. rewrite bool_decide_eq_true. split; congruence. }
    destruct (applyThemeToDOM_marker isDark (setIsDarkMode isDark w)) as [Hd Hl].
    destruct (applyThemeToDOM_rest isDark (setIsDarkMode isDark w)) as [Hm Hs].
    rewrite Hm, Hs, Hd, Hl. cbn [isDarkMode localStorage setIsDarkMode].
    repeat split; try apply HisDark.
    + intros Hf Heq. apply HisDark in Heq. congruence.
    + intros Hn. destruct isDark; [|done]. exfalso. by apply Hn, HisDark.
Qed.

Lemma initialize_spec_witness :
  localStorage (initialize (mkWorld true true ∅ ∅)) = {[key := lit "dark"]}
  ∧ isDarkMode (initialize (mkWorld true true {[key := lit "light"]} ∅)) ≠ true.
Proof.
  split.
  - destruct (initialize_spec (mkWorld true true ∅ ∅) eq_refl) as [H _].
    destruct (H (lookup_empty _)) as (_ & Hs & _). exact Hs.
  - destruct (initialize_spec (mkWorld true true {[key := lit "light"]} ∅) eq_refl) as [_ H].
    destruct (H (lit "light") (lookup_singleton_eq _ _) ltac:(discriminate)) as (Hd & _).
    intros Hdark. apply Hd in Hdark. discriminate Hdark.
Defined.

End ThemeFacts.

(** ** More on the validator *)

Section ValidatorMore.

Implicit Types (s p q v : jsstring) (f : Field).

Lemma trimStart_app_ws p v : whitespace_only p → trimStart (p ++ v) = trimStart v.
Proof.
  induction 1 as [|c p Hc _ IH]; simpl; [done|]. by rewrite Hc.
Qed.

Lemma trimStart_app_keep v q : trimStart v ≠ [] → trimStart (v ++ q) = trimStart v ++ q.
Proof.
  induction v as [|c v IH]; simpl; [done|].
  destruct (isWhiteSpace c); [exact IH | done].
Qed.

Lemma trimEnd_app_ws v q : whitespace_only q → trimEnd (v ++ q) = trimEnd v.
Proof.
  intros Hq. unfold trimEnd. rewrite rev_app_distr, trimStart_app_ws; [done|].
  by apply Forall_rev.
Qed.

Lemma trim_pad p v q :
  whitespace_only p → whitespace_only q → trim (p ++ v ++ q) = trim v.
Proof.
  intros Hp Hq. unfold trim. rewrite trimStart_app_ws by done.
  destruct (trimStart v) as [|c t] eqn:E.
  - apply trimStart_nil in E.
    assert (H : trimStart (v ++ q) = []).
    { apply trimStart_nil. by apply Forall_app. }
    by rewrite H.
  - rewrite trimStart_app_keep, E by (by rewrite E).
    by apply trimEnd_app_ws.
Qed.

Lemma filter_at_part p :
  address_part p → filter (λ c, c = N_of_ascii "@") p = [].
Proof.
  intros [_ H]. induction H as [|c p [_ Hc] _ IH]; [done|].
  rewrite filter_cons_False; done.
Qed.

Lemma address_part_length p : address_part p → 1 ≤ length p.
Proof. intros [Hne _]. destruct p; [done | simpl; lia]. Qed.

(** Surrounding white space does not change the answer for the name, the
    subject and the message. *)
Theorem validateField_padding (field : Field) (value before after : jsstring) :
  field ≠ Email → whitespace_only before → whitespace_only after →
  validateField field (before ++ value ++ after) = validateField field value.
Proof.
  intros Hf Hp Hq. rewrite !validateField_unfold, trim_pad by done.
  by destruct field.
Qed.

Lemma validateField_padding_witness :
  validateField Message (lit "  " ++ lit "hello world" ++ lit " ")
  = validateField Message (lit "hello world").
Proof.
  apply validateField_padding; [discriminate | by repeat constructor ..].
Defined.

(** An email value that passes has no white space anywhere, exactly one at
    sign, and at least five code units. *)
Theorem accepted_email_shape (value : jsstring) :
  validateField Email value = lit "" →
  Forall (λ c, isWhiteSpace c = false) value
  ∧ length (filter (λ c, c = N_of_ascii "@") value) = 1
  ∧ 5 ≤ length value.
Proof.
  rewrite validateField_unfold. cbn [Rules.minimum].
  destruct (negb (truthy (trim value))); [discriminate|].
  destruct (test emailRegex value) eqn:Ht; [|discriminate]. intros _.
  apply emailRegex_test in Ht.
  split; [by apply local_at_domain_tld_no_space|].
  destruct Ht as (loc & dom & tld & -> & Hl & Hd & Ht).
  split.
  - rewrite !filter_app, !(filter_at_part _ Hl), !(filter_at_part _ Hd),
      !(filter_at_part _ Ht). reflexivity.
  - apply address_part_length in Hl, Hd, Ht.
    rewrite !length_app. simpl. lia.
Qed.

Lemma accepted_email_shape_witness :
  length (filter (λ c, c = N_of_ascii "@") (lit "a@b.co")) = 1.
Proof. apply (accepted_email_shape (lit "a@b.co")). reflexivity. Defined.

End ValidatorMore.

(** ** More on the submission controller *)

Section ControllerMore.

Implicit Types (s : State) (f g : Field) (v u : jsstring) (fd : FormData).

Lemma State_ext s1 s2 :
  formData s1 = formData s2 → errors s1 = errors s2 → submission s1 = submission s2 →
  requests s1 = requests s2 → timers s1 = timers s2 → s1 = s2.
Proof. destruct s1, s2; simpl; congruence. Qed.

Lemma collectErrors_empty fd : (collectErrors fd).2 = true → (collectErrors fd).1 = ∅.
Proof.
  intros H. apply map_empty. intros f. rewrite collectErrors_lookup.
  rewrite collectErrors_valid_iff in H. specialize (H f).
  apply passes_truthy in H. by rewrite H.
Qed.

Lemma collectErrors_invalid fd f : ¬ passes f fd → (collectErrors fd).2 = false.
Proof.
  intros Hf. destruct (collectErrors fd).2 eqn:E; [|done].
  destruct Hf. by apply (proj1 (collectErrors_valid_iff fd) E).
Qed.

Lemma handleSubmit_invalid s :
  (collectErrors (formData s)).2 = false →
  handleSubmit s = setErrors (collectErrors (formData s)).1 s.
Proof. intros H. unfold handleSubmit. by rewrite validateForm_unfold, H. Qed.

Lemma handleSubmit_valid s :
  (collectErrors (formData s)).2 = true →
  handleSubmit s =
    mkState (formData s) ∅ (Submission.mk Loading (lit ""))
      (requests s ++ [formData s]) (timers s).
Proof.
  intros H. unfold handleSubmit. by rewrite validateForm_unfold, H, collectErrors_empty.
Qed.

Lemma hasError_collectErrors s f :
  truthy_opt ((collectErrors (formData s)).1 !! f) = true ↔ ¬ passes f (formData s).
Proof.
  rewrite collectErrors_lookup, passes_truthy.
  destruct (truthy (validateField f (get f (formData s)))) eqn:E; simpl; [|done].
  by rewrite E.
Qed.

Lemma handleInputChange_status f v s :
  Submission.status (submission (handleInputChange f v s)) = Idle.
Proof.
  rewrite handleInputChange_submission. by case_bool_decide.
Qed.

Lemma set_set_eq f v u fd : set f v (set f u fd) = set f v fd.
Proof. by destruct f. Qed.

Lemma set_set_ne f g v u fd : f ≠ g → set f v (set g u fd) = set g u (set f v fd).
Proof. by destruct f, g. Qed.

Lemma submit_accepted_aux s :
  submitDisabled s = false → (∀ f, passes f (formData s)) →
  step s Submit =
    mkState (formData s) ∅ (Submission.mk Loading (lit ""))
      (requests s ++ [formData s]) (timers s).
Proof.
  intros Hen Hv. cbn [step]. rewrite Hen.
  apply handleSubmit_valid. by apply collectErrors_valid_iff.
Qed.

(** A submit of a form with an invalid field, from a state whose button is
    enabled, sends nothing and leaves form data, submission state and timers
    alone; afterwards the form shows an error under the invalid fields and
    under no other. *)
Theorem submit_rejected (s : State) (field : Field) :
  submitDisabled s = false → ¬ passes field (formData s) →
  requests (step s Submit) = requests s
  ∧ submission (step s Submit) = submission s
  ∧ formData (step s Submit) = formData s
  ∧ timers (step s Submit) = timers s
  ∧ ∀ f, hasError (step s Submit) f = true ↔ ¬ passes f (formData s).
Proof.
  intros Hen Hf. cbn [step]. rewrite Hen.
  rewrite handleSubmit_invalid by (by eapply collectErrors_invalid).
  repeat split; try apply hasError_collectErrors.
Qed.

Lemma submit_rejected_witness :
  requests (step initial Submit) = [] ∧ hasError (step initial Submit) Email = true.
Proof.
  destruct (submit_rejected initial Name) as (H1 & _ & _ & _ & H2).
  - reflexivity.
  - discriminate.
  - split; [exact H1|]. apply H2. discriminate.
Defined.

(** A submit of a form whose four fields pass, from a state whose button is
    enabled, sends one request whose body is the form data, empties the error
    object and puts the status to loading with an empty message; form data and
    timers stay. *)
Theorem submit_accepted (s : State) :
  submitDisabled s = false → (∀ f, passes f (formData s)) →
  step s Submit =
    mkState (formData s) ∅ (Submission.mk Loading (lit ""))
      (requests s ++ [formData s]) (timers s).
Proof.
  apply submit_accepted_aux.
Qed.

Lemma submit_accepted_witness :
  requests (step (run initial fill) Submit)
  = [mkFormData (lit "Al") (lit "a@b.co") (lit "Hey") (lit "0123456789")].
Proof.
  rewrite (submit_accepted (run initial fill)); [reflexivity | reflexivity |].
  by intros [].
Defined.

(** A second submit right after a first one changes nothing: either the
    first was rejected and the second installs the same errors, or the first
    went out and the button is disabled. *)
Theorem submit_twice (s : State) : step (step s Submit) Submit = step s Submit.
Proof.
  cbn [step]. destruct (submitDisabled s) eqn:Hen; [by rewrite Hen|].
  destruct (collectErrors (formData s)).2 eqn:Hv.
  - by rewrite handleSubmit_valid.
  - rewrite handleSubmit_invalid by done.
    change (submitDisabled (setErrors _ s)) with (submitDisabled s). rewrite Hen.
    by rewrite handleSubmit_invalid.
Qed.

(** Edits of two different fields can be made in either order. *)
Theorem edits_commute (s : State) (f g : Field) (v u : jsstring) :
  f ≠ g →
  step (step s (Change g u)) (Change f v) = step (step s (Change f v)) (Change g u).
Proof.
  intros Hne. cbn [step]. apply State_ext.
  - rewrite !handleInputChange_formData. by apply set_set_ne.
  - rewrite !handleInputChange_errors.
    assert (Hf : ∀ m : gmap Field jsstring, <[g := lit ""]> m !! f = m !! f)
      by (intros m; by apply lookup_insert_ne).
    assert (Hg : ∀ m : gmap Field jsstring, <[f := lit ""]> m !! g = m !! g)
      by (intros m; by apply lookup_insert_ne).
    destruct (truthy_opt (errors s !! g)) eqn:Eg, (truthy_opt (errors s !! f)) eqn:Ef;
      rewrite ?Hf, ?Hg, ?Eg, ?Ef; try done.
    by apply insert_insert_ne.
  - rewrite !handleInputChange_submission.
    by destruct (bool_decide (Submission.status (submission s) = Idle)) eqn:E; rewrite ?E.
  - by rewrite !(proj1 (handleInputChange_pending _ _ _)).
  - by rewrite !(proj2 (handleInputChange_pending _ _ _)).
Qed.

Lemma edits_commute_witness :
  step (step initial (Change Email (lit "a@b.co"))) (Change Name (lit "Al"))
  = step (step initial (Change Name (lit "Al"))) (Change Email (lit "a@b.co")).
Proof. apply edits_commute. discriminate. Defined.

(** Of two edits of the same field the second one counts: the state is the
    one the second edit alone gives. *)
Theorem edit_overrides (s : State) (f : Field) (v u : jsstring) :
  step (step s (Change f u)) (Change f v) = step s (Change f v).
Proof.
  cbn [step]. apply State_ext.
  - rewrite !handleInputChange_formData. apply set_set_eq.
  - rewrite !handleInputChange_errors.
    destruct (truthy_opt (errors s !! f)) eqn:Ef; rewrite ?Ef; [|done].
    by rewrite lookup_insert_eq.
  - rewrite !handleInputChange_submission.
    by destruct (bool_decide (Submission.status (submission s) = Idle)) eqn:E; rewrite ?E.
  - by rewrite !(proj1 (handleInputChange_pending _ _ _)).
  - by rewrite !(proj2 (handleInputChange_pending _ _ _)).
Qed.

Lemma submission_known_step s ev : submission_known s → submission_known (step s ev).
Proof.
  intros Hk. destruct ev as [g v| |i result|i]; cbn [step].
  - unfold submission_known. rewrite handleInputChange_submission.
    case_bool_decide; [exact Hk | by left].
  - destruct (submitDisabled s); [done|].
    destruct (collectErrors (formData s)).2 eqn:Hv.
    + rewrite handleSubmit_valid by done. right. by left.
    + by rewrite handleSubmit_invalid.
  - destruct (requests s !! i) as [body|]; [|done].
    rewrite resumeSubmit_showSuccess. right. by right.
  - destruct (timers s !! i) as [d|]; [by left | done].
Qed.

Lemma loading_sound_step s ev : loading_sound s → loading_sound (step s ev).
Proof.
  intros Hl. destruct ev as [g v| |i result|i]; cbn [step].
  - intros H. by rewrite handleInputChange_status in H.
  - destruct (submitDisabled s) eqn:Hen; [done|].
    destruct (collectErrors (formData s)).2 eqn:Hv.
    + rewrite handleSubmit_valid by done. intros _. cbn.
      split; [done|]. split; [by apply collectErrors_valid_iff | apply last_snoc].
    + rewrite handleSubmit_invalid by done. intros H. cbn in H.
      unfold submitDisabled in Hen. by rewrite bool_decide_eq_true_2 in Hen.
  - destruct (requests s !! i) as [body|]; [|done].
    rewrite resumeSubmit_showSuccess. by intros H.
  - destruct (timers s !! i) as [d|]; [by intros H | done].
Qed.

Lemma requests_valid_step s ev : requests_valid s → requests_valid (step s ev).
Proof.
  unfold requests_valid. intros Hr. destruct ev as [g v| |i result|i]; cbn [step].
  - by rewrite (proj1 (handleInputChange_pending _ _ _)).
  - destruct (submitDisabled s); [done|].
    destruct (collectErrors (formData s)).2 eqn:Hv.
    + rewrite handleSubmit_valid by done. cbn. apply Forall_app. split; [done|].
      constructor; [by apply collectErrors_valid_iff | constructor].
    + by rewrite handleSubmit_invalid.
  - destruct (requests s !! i) as [body|]; [|done].
    rewrite resumeSubmit_showSuccess. cbn. by apply Forall_delete.
  - by destruct (timers s !! i).
Qed.

(** In every reachable state the submission cell holds one of three values:
    idle with an empty message, loading with an empty message, success with
    the thank-you message.  The error status is never taken, so the error
    alert of the page is never shown. *)
Theorem submission_never_error (s : State) :
  reachable s →
  (submission s = Submission.mk Idle (lit "")
   ∨ submission s = Submission.mk Loading (lit "")
   ∨ submission s = Submission.mk Success thanks)
  ∧ Submission.status (submission s) ≠ Error.
Proof.
  intros Hr.
  assert (Hk : submission_known s).
  { revert s Hr. apply reachable_ind; [by left|].
    intros s ev _. apply submission_known_step. }
  split; [exact Hk|]. by destruct Hk as [->|[->| ->]].
Qed.

Lemma submission_never_error_witness :
  Submission.status (submission (run initial (fill ++ [Submit; Settle 0 network_down]))) ≠ Error.
Proof.
  apply (submission_never_error (run initial (fill ++ [Submit; Settle 0 network_down]))).
  by eexists.
Defined.

(** In every reachable state whose status is loading, the error object is
    empty, all four fields pass validation, and the request sent last is
    pending with the current form data as its body. *)
Theorem loading_means_sent (s : State) :
  reachable s → Submission.status (submission s) = Loading →
  errors s = ∅
  ∧ (∀ f, passes f (formData s))
  ∧ last (requests s) = Some (formData s).
Proof.
  intros Hr. revert s Hr. apply (reachable_ind loading_sound).
  - by intros H.
  - intros s ev _. apply loading_sound_step.
Qed.

Lemma loading_means_sent_witness :
  last (requests (run initial (fill ++ [Submit])))
  = Some (mkFormData (lit "Al") (lit "a@b.co") (lit "Hey") (lit "0123456789")).
Proof.
  apply (loading_means_sent (run initial (fill ++ [Submit]))); [by eexists | reflexivity].
Defined.

Lemma requests_valid_reachable s : reachable s → requests_valid s.
Proof.
  apply reachable_ind; [constructor|]. intros s' ev _. apply requests_valid_step.
Qed.

(** In every reachable state, every pending request carries form data whose
    four fields pass validation: no invalid form is ever sent. *)
Theorem sent_forms_are_valid (s : State) (body : FormData) (field : Field) :
  reachable s → body ∈ requests s → passes field body.
Proof.
  intros Hr Hin. apply requests_valid_reachable in Hr.
  unfold requests_valid in Hr. rewrite Forall_forall in Hr. by apply Hr.
Qed.

Lemma sent_forms_are_valid_witness :
  passes Email (mkFormData (lit "Al") (lit "a@b.co") (lit "Hey") (lit "0123456789")).
Proof.
  apply (sent_forms_are_valid (run initial (fill ++ [Submit]))); [by eexists|].
  apply list_elem_of_here.
Defined.

(** From any state, typing four values that pass validation and submitting
    sends one request with exactly these values and shows the spinner: what the
    form held before, the errors shown before and the status before do not
    matter. *)
Theorem fill_and_submit (s : State) (n e sub m : jsstring) :
  validateField Name n = lit "" → validateField Email e = lit "" →
  validateField Subject sub = lit "" → validateField Message m = lit "" →
  run s [Change Name n; Change Email e; Change Subject sub; Change Message m; Submit]
  = mkState (mkFormData n e sub m) ∅ (Submission.mk Loading (lit ""))
      (requests s ++ [mkFormData n e sub m]) (timers s).
Proof.
  intros Hn He Hs Hm.
  change (run s [Change Name n; Change Email e; Change Subject sub; Change Message m; Submit])
    with (step (handleInputChange Message m
                  (handleInputChange Subject sub
                     (handleInputChange Email e (handleInputChange Name n s)))) Submit).
  set (s4 := handleInputChange Message m _).
  assert (Hfd : formData s4 = mkFormData n e sub m).
  { unfold s4. by rewrite !handleInputChange_formData. }
  assert (Hst : submitDisabled s4 = false).
  { unfold submitDisabled, s4. by rewrite handleInputChange_status. }
  assert (Hreq : requests s4 = requests s ∧ timers s4 = timers s).
  { unfold s4. by rewrite !(proj1 (handleInputChange_pending _ _ _)),
                          !(proj2 (handleInputChange_pending _ _ _)). }
  destruct Hreq as [Hreq Htm].
  rewrite submit_accepted_aux; [by rewrite Hfd, Hreq, Htm | done |].
  rewrite Hfd. by intros [].
Qed.

Lemma fill_and_submit_witness :
  Submission.status
    (submission (run (step initial Submit)
                   [Change Name (lit "Al"); Change Email (lit "a@b.co");
                    Change Subject (lit "Hey"); Change Message (lit "0123456789"); Submit]))
  = Loading.
Proof. by rewrite fill_and_submit. Defined.

(** How a request settles makes no difference to the component: the state
    after an OK response, after a response that is not OK and after a rejected
    promise is the same. *)
Theorem settle_ignores_outcome (s : State) (i : nat) (result1 result2 : Exn + Response) :
  step s (Settle i result1) = step s (Settle i result2).
Proof.
  cbn [step]. destruct (requests s !! i) as [body|]; [|done].
  by rewrite !resumeSubmit_showSuccess.
Qed.

(** C6, as stated, fails: the guard does not follow the pending request.
    After a valid form has been sent and the user has typed in a field, the
    request is still pending, the button is enabled again, and a submit sends
    a second request. *)
Lemma second_submit_while_pending : ¬ no_submit_while_pending.
Proof.
  intros H.
  specialize (H (run initial (fill ++ [Submit; Change Name (lit "Al")]))
                ltac:(by eexists) ltac:(discriminate)).
  apply (f_equal (λ s, length (requests s))) in H. vm_compute in H. discriminate H.
Qed.

(** C6, amended: in a state whose status is loading the submit button is
    disabled and a submit changes nothing: the state is the same and no
    request is sent.  The guard follows the status, not the pending requests:
    in a state whose status is not loading a submit of a valid form sends a
    request whatever is pending, and after an edit, also one made while a
    request is pending, a submit of a valid form sends a further request. *)
Theorem submit_guard_follows_status (s : State) :
  (Submission.status (submission s) = Loading →
   step s Submit = s ∧ requests (step s Submit) = requests s)
  ∧ (Submission.status (submission s) ≠ Loading → (∀ f, passes f (formData s)) →
     requests (step s Submit) = requests s ++ [formData s])
  ∧ (∀ field value, (∀ f, passes f (set field value (formData s))) →
     requests (step (step s (Change field value)) Submit)
     = requests s ++ [set field value (formData s)]).
Proof.
  split; [|split].
  - intros H. cbn [step]. unfold submitDisabled. by rewrite bool_decide_eq_true_2.
  - intros Hne Hv. rewrite submit_accepted_aux; [done | | done].
    unfold submitDisabled. by rewrite bool_decide_eq_false_2.
  - intros field value Hv. cbn [step]. fold (step (handleInputChange field value s) Submit).
    rewrite submit_accepted_aux.
    + cbn [requests]. rewrite handleInputChange_formData.
      by rewrite (proj1 (handleInputChange_pending _ _ _)).
    + unfold submitDisabled. by rewrite handleInputChange_status.
    + by rewrite handleInputChange_formData.
Qed.

Lemma submit_guard_follows_status_witness :
  let s := run initial (fill ++ [Submit]) in
  step s Submit = s
  ∧ length (requests (step (step s (Change Name (lit "Al"))) Submit)) = 2.
Proof.
  destruct (submit_guard_follows_status (run initial (fill ++ [Submit]))) as (H1 & _ & H3).
  split.
  - apply H1. reflexivity.
  - cbv zeta. rewrite (H3 Name (lit "Al")); [reflexivity | by intros []].
Defined.

End ControllerMore.

(** ** More on the theme hook *)

Section ThemeMore.

Import Theme.

Implicit Types (w : World) (b : bool) (t : ThemeName) (c : Call).

Lemma World_ext w1 w2 :
  window_defined w1 = window_defined w2 → isDarkMode w1 = isDarkMode w2 →
  localStorage w1 = localStorage w2 → classList w1 = classList w2 → w1 = w2.
Proof. destruct w1, w2; simpl; congruence. Qed.

Lemma classList_last_wins (b b' : bool) (cl : gset jsstring) :
  (if b then ({[lit "dark"]} ∪ (if b' then ({[lit "dark"]} ∪ cl) ∖ {[lit "light"]}
                                 else ({[lit "light"]} ∪ cl) ∖ {[lit "dark"]}))
               ∖ {[lit "light"]}
   else ({[lit "light"]} ∪ (if b' then ({[lit "dark"]} ∪ cl) ∖ {[lit "light"]}
                            else ({[lit "light"]} ∪ cl) ∖ {[lit "dark"]}))
          ∖ {[lit "dark"]})
  = (if b then ({[lit "dark"]} ∪ cl) ∖ {[lit "light"]}
     else ({[lit "light"]} ∪ cl) ∖ {[lit "dark"]}).
Proof.
  pose proof dark_ne_light as Hne.
  apply set_eq. intros x.
  destruct (decide (x = lit "dark")), (decide (x = lit "light")), b, b';
    rewrite !elem_of_difference, !elem_of_union, !elem_of_difference, !elem_of_union,
      !elem_of_singleton;
    intuition congruence.
Qed.

Lemma classList_fixed b (cl : gset jsstring) :
  (lit "dark" ∈ cl ↔ b = true) → (lit "light" ∈ cl ↔ b = false) →
  (if b then ({[lit "dark"]} ∪ cl) ∖ {[lit "light"]}
   else ({[lit "light"]} ∪ cl) ∖ {[lit "dark"]}) = cl.
Proof.
  intros Hd Hl. apply set_eq. intros x.
  destruct b;
    rewrite !elem_of_difference, !elem_of_union, !elem_of_singleton;
    split.
  - intros [[->|?] _]; [by apply Hd | done].
  - intros Hx. split; [by right|]. intros ->. by apply Hl in Hx.
  - intros [[->|?] _]; [by apply Hl | done].
  - intros Hx. split; [by right|]. intros ->. by apply Hd in Hx.
Qed.

(** [applyThemeToDOM] leaves exactly one of the two markers on the document
    root, the one of its argument; it touches no other class; and of two
    calls the later one decides, so that a repeated call changes nothing. *)
Theorem applyThemeToDOM_exclusive (isDark previous : bool) (w : World) :
  (lit "dark" ∈ classList (applyThemeToDOM isDark w) ↔ isDark = true)
  ∧ (lit "light" ∈ classList (applyThemeToDOM isDark w) ↔ isDark = false)
  ∧ (∀ class, class ≠ lit "dark" → class ≠ lit "light" →
        (class ∈ classList (applyThemeToDOM isDark w) ↔ class ∈ classList w))
  ∧ applyThemeToDOM isDark (applyThemeToDOM previous w) = applyThemeToDOM isDark w.
Proof.
  destruct (applyThemeToDOM_marker isDark w) as [Hd Hl].
  split; [exact Hd|]. split; [exact Hl|]. split.
  - intros class H1 H2. rewrite applyThemeToDOM_classList.
    destruct isDark;
      rewrite !elem_of_difference, !elem_of_union, !elem_of_singleton; intuition.
  - apply World_ext; try by destruct isDark, previous.
    rewrite !applyThemeToDOM_classList. apply classList_last_wins.
Qed.

Lemma applyThemeToDOM_exclusive_witness :
  lit "app" ∈ classList (applyThemeToDOM false (mkWorld true true ∅ {[lit "app"]})).
Proof.
  destruct (applyThemeToDOM_exclusive false false (mkWorld true true ∅ {[lit "app"]}))
    as (_ & _ & H & _).
  apply H; [discriminate | discriminate |]. cbn [classList]. by apply elem_of_singleton.
Defined.

Lemma toggleTheme_setTheme w :
  toggleTheme w = setTheme (if isDarkMode w then light else dark) w.
Proof. unfold toggleTheme, setTheme. by destruct (isDarkMode w). Qed.

Lemma setTheme_fields t w :
  window_defined (setTheme t w) = window_defined w
  ∧ isDarkMode (setTheme t w) = bool_decide (themeString t = lit "dark")
  ∧ localStorage (setTheme t w) = <[key := themeString t]> (localStorage w)
  ∧ classList (setTheme t w) =
      (if bool_decide (themeString t = lit "dark")
       then ({[lit "dark"]} ∪ classList w) ∖ {[lit "light"]}
       else ({[lit "light"]} ∪ classList w) ∖ {[lit "dark"]}).
Proof. by destruct t. Qed.

Lemma setTheme_currentTheme t w : currentTheme (setTheme t w) = themeString t.
Proof. by destruct t. Qed.

Lemma setTheme_marker t w : marker_matches (setTheme t w).
Proof.
  destruct (setTheme_fields t w) as (_ & Hm & _ & Hc).
  unfold marker_matches. rewrite Hm, Hc. pose proof dark_ne_light.
  destruct (bool_decide (themeString t = lit "dark"));
    rewrite !elem_of_difference, !elem_of_union, !elem_of_singleton;
    intuition congruence.
Qed.

Lemma setTheme_getItem t w : getItem key (setTheme t w) = Some (themeString t).
Proof. unfold getItem. destruct t; apply lookup_insert_eq. Qed.

(** [setTheme] makes its argument the current theme, stores its string
    under the preference key and leaves the matching marker, and no other, on
    the document root; of two calls the later one decides. *)
Theorem setTheme_sets (theme previous : ThemeName) (w : World) :
  currentTheme (setTheme theme w) = themeString theme
  ∧ getItem key (setTheme theme w) = Some (themeString theme)
  ∧ marker_matches (setTheme theme w)
  ∧ setTheme theme (setTheme previous w) = setTheme theme w.
Proof.
  split; [apply setTheme_currentTheme|].
  split; [apply setTheme_getItem|].
  split; [apply setTheme_marker|].
  destruct (setTheme_fields theme (setTheme previous w)) as (H1 & H2 & H3 & H4).
  destruct (setTheme_fields theme w) as (G1 & G2 & G3 & G4).
  destruct (setTheme_fields previous w) as (P1 & P2 & P3 & P4).
  apply World_ext.
  - congruence.
  - congruence.
  - rewrite H3, G3, P3. apply insert_insert_eq.
  - rewrite H4, G4, P4. apply classList_last_wins.
Qed.

(** [toggleTheme] is [setTheme] of the other theme, and the text the hook
    offers for display names the theme a toggle leads to. *)
Theorem toggleTheme_flips (w : World) :
  toggleTheme w = setTheme (if isDarkMode w then light else dark) w
  ∧ isDarkMode (toggleTheme w) = negb (isDarkMode w)
  ∧ (themeDisplayText w = lit "Light Mode" ↔ currentTheme (toggleTheme w) = lit "light")
  ∧ (themeDisplayText w = lit "Dark Mode" ↔ currentTheme (toggleTheme w) = lit "dark").
Proof.
  split; [apply toggleTheme_setTheme|].
  rewrite toggleTheme_setTheme, setTheme_currentTheme.
  unfold themeDisplayText. by destruct (isDarkMode w).
Qed.

Lemma toggleThemeFrom_setTheme (rendered : bool) w :
  toggleThemeFrom rendered w = setTheme (if rendered then light else dark) w.
Proof. unfold toggleThemeFrom, setTheme. by destruct rendered. Qed.

Lemma setTheme_last_wins t t' w : setTheme t (setTheme t' w) = setTheme t w.
Proof.
  destruct (setTheme_fields t (setTheme t' w)) as (H1 & H2 & H3 & H4).
  destruct (setTheme_fields t w) as (G1 & G2 & G3 & G4).
  destruct (setTheme_fields t' w) as (P1 & P2 & P3 & P4).
  apply World_ext.
  - congruence.
  - congruence.
  - rewrite H3, G3, P3. apply insert_insert_eq.
  - rewrite H4, G4, P4. apply classList_last_wins.
Qed.

Lemma setTheme_fixed t w :
  marker_matches w → getItem key w = Some (currentTheme w) →
  currentTheme w = themeString t → setTheme t w = w.
Proof.
  intros [Hd Hl] Hs Hc.
  destruct (setTheme_fields t w) as (G1 & G2 & G3 & G4).
  assert (Hb : bool_decide (themeString t = lit "dark") = isDarkMode w).
  { rewrite <- Hc. unfold currentTheme. by destruct (isDarkMode w). }
  rewrite Hb in G2, G4.
  apply World_ext; [done | done | |].
  - rewrite G3, <- Hc. by apply insert_id.
  - rewrite G4. by apply classList_fixed.
Qed.

(** Two toggles.  When the component is rendered between them, so that the
    second call reads the flag the first has set, they bring back the flag,
    store the string of the theme that was current and leave its marker on the
    document root, and they give back the very same state when the marker and
    the stored string agreed with the flag before.  When both calls come from
    the same render, as two calls in one handler do, both read the same flag:
    the second repeats the first, and the theme ends up switched once. *)
Theorem toggleTheme_twice (w : World) :
  let once := toggleThemeFrom (isDarkMode w) w in
  let rendered_between := toggleThemeFrom (isDarkMode once) once in
  let same_render := toggleThemeFrom (isDarkMode w) once in
  isDarkMode rendered_between = isDarkMode w
  ∧ getItem key rendered_between = Some (currentTheme w)
  ∧ marker_matches rendered_between
  ∧ (marker_matches w → getItem key w = Some (currentTheme w) → rendered_between = w)
  ∧ same_render = once
  ∧ isDarkMode same_render = negb (isDarkMode w).
Proof.
  cbv zeta. rewrite !toggleThemeFrom_setTheme, !setTheme_last_wins.
  rewrite !(proj1 (proj2 (setTheme_fields _ _))).
  set (t := if isDarkMode w then light else dark).
  set (back := if bool_decide (themeString t = lit "dark") then light else dark).
  assert (Hback : themeString back = currentTheme w).
  { unfold back, t, currentTheme. by destruct (isDarkMode w). }
  split; [|split; [|split; [|split; [|split]]]].
  - unfold back, t. by destruct (isDarkMode w).
  - by rewrite setTheme_getItem, Hback.
  - apply setTheme_marker.
  - intros Hm Hs. by apply setTheme_fixed.
  - done.
  - unfold t. by destruct (isDarkMode w).
Qed.

Lemma toggleTheme_twice_witness :
  let w := setTheme light (mkWorld true true ∅ ∅) in
  toggleThemeFrom (isDarkMode (toggleThemeFrom (isDarkMode w) w))
    (toggleThemeFrom (isDarkMode w) w) = w.
Proof.
  destruct (toggleTheme_twice (setTheme light (mkWorld true true ∅ ∅)))
    as (_ & _ & _ & H & _).
  apply H.
  - apply setTheme_marker.
  - rewrite setTheme_currentTheme. apply setTheme_getItem.
Defined.

Lemma initialize_fields w :
  window_defined w = true →
  window_defined (initialize w) = true
  ∧ isDarkMode (initialize w) =
      (if truthy_opt (getItem key w)
       then bool_decide (getItem key w = Some (lit "dark")) else true)
  ∧ localStorage (initialize w) =
      (if truthy_opt (getItem key w) then localStorage w
       else <[key := lit "dark"]> (localStorage w))
  ∧ classList (initialize w) =
      (if (if truthy_opt (getItem key w)
           then bool_decide (getItem key w = Some (lit "dark")) else true)
       then ({[lit "dark"]} ∪ classList w) ∖ {[lit "light"]}
       else ({[lit "light"]} ∪ classList w) ∖ {[lit "dark"]}).
Proof.
  intros Hw. unfold initialize. rewrite Hw. cbv zeta.
  destruct (truthy_opt (getItem key w)).
  - destruct (bool_decide (getItem key w = Some (lit "dark"))); by repeat split.
  - by repeat split.
Qed.

Lemma initialize_marker w : window_defined w = true → marker_matches (initialize w).
Proof.
  intros Hw. destruct (initialize_fields w Hw) as (_ & Hm & _ & Hc).
  unfold marker_matches. rewrite Hm, Hc. pose proof dark_ne_light.
  destruct (if truthy_opt (getItem key w)
            then bool_decide (getItem key w = Some (lit "dark")) else true);
    rewrite !elem_of_difference, !elem_of_union, !elem_of_singleton;
    intuition congruence.
Qed.

Lemma call_setTheme w c : ∃ t, call w c = setTheme t w.
Proof.
  destruct c as [|t]; cbn [call]; [|by exists t].
  rewrite toggleTheme_setTheme. by eexists.
Qed.

Lemma truthy_themeString t : truthy (themeString t) = true.
Proof. by destruct t. Qed.

(** Running the mount effect a second time changes nothing. *)
Theorem initialize_idempotent (w : World) : initialize (initialize w) = initialize w.
Proof.
  destruct (window_defined w) eqn:Hw.
  2: { assert (H : initialize w = w) by (unfold initialize; by rewrite Hw).
       by rewrite !H. }
  destruct (initialize_fields w Hw) as (H1 & H2 & H3 & H4).
  destruct (initialize_fields (initialize w) H1) as (G1 & G2 & G3 & G4).
  unfold getItem in *.
  destruct (truthy_opt (localStorage w !! key)) eqn:Ht.
  - rewrite H3 in G2, G3, G4. rewrite Ht in G2, G3, G4.
    apply World_ext; [congruence | congruence | congruence |].
    rewrite G4, H4.
    destruct (bool_decide (localStorage w !! key = Some (lit "dark")));
      [apply (classList_last_wins true true) | apply (classList_last_wins false false)].
  - rewrite H3 in G2, G3, G4. rewrite lookup_insert_eq in G2, G3, G4.
    change (truthy_opt (Some (lit "dark"))) with true in G2, G3, G4. cbv iota in G2, G3, G4.
    rewrite bool_decide_eq_true_2 in G2, G4 by done.
    apply World_ext; [congruence | congruence | congruence |].
    rewrite G4, H4. apply (classList_last_wins true true).
Qed.

(** A preference set through the hook survives a reload: when a fresh
    instance mounts in a browser whose storage is the one a toggle or a
    [setTheme] left, it takes the flag that call had set, applies the matching
    marker and leaves the storage as it is. *)
Theorem preference_survives_reload (w fresh : World) (c : Call) :
  window_defined fresh = true →
  localStorage fresh = localStorage (call w c) →
  isDarkMode (initialize fresh) = isDarkMode (call w c)
  ∧ localStorage (initialize fresh) = localStorage fresh
  ∧ marker_matches (initialize fresh).
Proof.
  intros Hw Hst. destruct (call_setTheme w c) as [t Ht]. rewrite Ht in *.
  destruct (setTheme_fields t w) as (_ & Hm & Hs & _).
  destruct (initialize_fields fresh Hw) as (_ & H2 & H3 & _).
  assert (Hsaved : getItem key fresh = Some (themeString t)).
  { unfold getItem. rewrite Hst, Hs. apply lookup_insert_eq. }
  rewrite Hsaved in H2, H3. cbn [truthy_opt] in H2, H3.
  rewrite truthy_themeString in H2, H3.
  split; [|split; [done | by apply initialize_marker]].
  rewrite H2, Hm. by destruct t.
Qed.

Lemma preference_survives_reload_witness :
  isDarkMode (initialize (mkWorld true true {[key := lit "light"]} ∅)) = false.
Proof.
  destruct (preference_survives_reload (mkWorld true true ∅ ∅)
              (mkWorld true true {[key := lit "light"]} ∅) (SetTheme light))
    as (H & _); [reflexivity | | exact H].
  cbn. by rewrite insert_empty.
Defined.

(** After the hook has mounted in a browser, and after any calls of
    [toggleTheme] and [setTheme], the marker on the document root agrees with
    the flag and a string that is not empty is stored under the preference key;
    once a call has been made, that string is the current theme. *)
Theorem mounted_hook_consistent (w : World) (cs : list Call) :
  window_defined w = true →
  marker_matches (calls (initialize w) cs)
  ∧ (∃ stored, getItem key (calls (initialize w) cs) = Some stored ∧ stored ≠ lit "")
  ∧ (cs ≠ [] →
     getItem key (calls (initialize w) cs) = Some (currentTheme (calls (initialize w) cs))).
Proof.
  intros Hw. destruct cs as [|c cs _] using rev_ind.
  - cbn [calls foldl]. split; [by apply initialize_marker|]. split; [|done].
    destruct (initialize_fields w Hw) as (_ & _ & H3 & _).
    unfold getItem at 1. rewrite H3.
    destruct (getItem key w) as [[|x saved]|] eqn:Hs; cbn [truthy_opt truthy].
    + rewrite lookup_insert_eq. by eexists.
    + exists (x :: saved). by split.
    + rewrite lookup_insert_eq. by eexists.
  - unfold calls. rewrite foldl_app. cbn [foldl].
    destruct (call_setTheme (foldl call (initialize w) cs) c) as [t ->].
    pose proof (setTheme_currentTheme t (foldl call (initialize w) cs)) as Hc.
    pose proof (setTheme_getItem t (foldl call (initialize w) cs)) as Hg.
    split; [apply setTheme_marker|]. split.
    + exists (themeString t). split; [exact Hg | by destruct t].
    + intros _. by rewrite Hg, Hc.
Qed.

Lemma mounted_hook_consistent_witness :
  getItem key (calls (initialize (mkWorld true true ∅ ∅)) [Toggle; Toggle; Toggle])
  = Some (currentTheme
            (calls (initialize (mkWorld true true ∅ ∅)) [Toggle; Toggle; Toggle])).
Proof.
  apply (mounted_hook_consistent (mkWorld true true ∅ ∅) [Toggle; Toggle; Toggle]);
    [reflexivity | discriminate].
Defined.

(** The hook writes to one storage key and to two classes only: the mount
    effect, [toggleTheme] and [setTheme] leave every other key of the storage
    and every other class of the document root as they are. *)
Theorem theme_frame (w : World) (c : Call) (k class : jsstring) :
  k ≠ key → class ≠ lit "dark" → class ≠ lit "light" →
  localStorage (initialize w) !! k = localStorage w !! k
  ∧ localStorage (call w c) !! k = localStorage w !! k
  ∧ (class ∈ classList (initialize w) ↔ class ∈ classList w)
  ∧ (class ∈ classList (call w c) ↔ class ∈ classList w).
Proof.
  intros Hk Hd Hl.
  assert (Hcl : ∀ b : bool,
             class ∈ (if b then ({[lit "dark"]} ∪ classList w) ∖ {[lit "light"]}
                      else ({[lit "light"]} ∪ classList w) ∖ {[lit "dark"]})
             ↔ class ∈ classList w).
  { intros b. destruct b;
      rewrite !elem_of_difference, !elem_of_union, !elem_of_singleton; intuition. }
  destruct (call_setTheme w c) as [t ->].
  destruct (setTheme_fields t w) as (_ & _ & S3 & S4). rewrite S3, S4.
  destruct (window_defined w) eqn:Hw.
  - destruct (initialize_fields w Hw) as (_ & _ & H3 & H4). rewrite H3, H4.
    repeat split; try apply Hcl; try (by apply lookup_insert_ne).
    destruct (truthy_opt (getItem key w)); [done | by apply lookup_insert_ne].
  - replace (initialize w) with w by (unfold initialize; by rewrite Hw).
    repeat split; try apply Hcl; try done; by apply lookup_insert_ne.
Qed.

Lemma theme_frame_witness :
  localStorage (call (mkWorld true true {[lit "lang" := lit "en"]} ∅) Toggle) !! lit "lang"
  = Some (lit "en").
Proof.
  destruct (theme_frame (mkWorld true true {[lit "lang" := lit "en"]} ∅) Toggle
              (lit "lang") (lit "x")) as (_ & H & _); try discriminate.
  rewrite H. apply lookup_singleton_eq.
Defined.

(** An empty string stored under the preference key counts as no
    preference: the mount effect replaces it by "dark" and applies the dark
    theme. *)
Theorem initialize_empty_preference (w : World) :
  window_defined w = true → getItem key w = Some (lit "") →
  getItem key (initialize w) = Some (lit "dark")
  ∧ isDarkMode (initialize w) = true
  ∧ lit "dark" ∈ classList (initialize w)
  ∧ lit "light" ∉ classList (initialize w).
Proof.
  intros Hw Hs. destruct (initialize_fields w Hw) as (_ & H2 & H3 & _).
  destruct (initialize_marker w Hw) as [Hd Hl].
  rewrite Hs in H2, H3. cbn in H2, H3.
  split; [unfold getItem; rewrite H3; apply lookup_insert_eq|].
  split; [exact H2|]. split; [by apply Hd|].
  intros Hin. apply Hl in Hin. congruence.
Qed.

Lemma initialize_empty_preference_witness :
  getItem key (initialize (mkWorld true false {[key := lit ""]} ∅)) = Some (lit "dark").
Proof.
  apply (initialize_empty_preference (mkWorld true false {[key := lit ""]} ∅));
    [reflexivity | apply lookup_singleton_eq].
Defined.

End ThemeMore.
